(** * Transceiver negotiation layer and RTP relays of pion/webrtc (cretz fork)

    A shallow embedding of [rtptransceiver.go] (direction state machine,
    [replaceTrack], [satisfyTypeAndDirection]) and of the packet loops of
    the two relay examples, with the properties of the specification
    proved or refuted over it.

    Go pointers are addresses into an explicit heap, so that the sharing
    between a Transceiver, its Sender and the Tracks that list this Sender
    among their active senders is the sharing of the program. *)

From Stdlib Require Import ZArith Lia Ascii String.
From stdpp Require Import base option list strings gmap fin_maps.

Local Open Scope Z_scope.

(** ** Data model *)

(** A non-nil Go pointer.  [option ptr] is a pointer that may be nil. *)
Definition ptr := nat.

Inductive RTPCodecType := RTPCodecTypeAudio | RTPCodecTypeVideo.

Inductive RTPTransceiverDirection :=
| RTPTransceiverDirectionSendrecv
| RTPTransceiverDirectionSendonly
| RTPTransceiverDirectionRecvonly
| RTPTransceiverDirectionInactive.

#[global] Instance RTPCodecType_eq_dec : EqDecision RTPCodecType.
Proof. solve_decision. Defined.

#[global] Instance RTPTransceiverDirection_eq_dec :
  EqDecision RTPTransceiverDirection.
Proof. solve_decision. Defined.

(** Modelled from the spec: the declaration of [Track] is not part of the
    sources at hand; these are the fields [replaceTrack] reads and writes
    ([track.Kind()], [track.codec.MimeType], [track.receiver],
    [track.activeSenders], [track.totalSenderCount]) and the SSRC the relays
    read, with the spec's data model for their types. *)
Record Track := mkTrack {
  trackKind : RTPCodecType;
  ssrc : Z;
  codecMimeType : string;
  trackReceiver : option ptr;
  activeSenders : list ptr;
  totalSenderCount : Z
}.

(** Modelled from the spec: the declaration of [RTPSender] is not part of
    the sources at hand; [track] and [transceiver] are the two fields the
    transceiver code assigns. *)
Record RTPSender := mkSender {
  track : option ptr;
  transceiver : option ptr
}.

Record RTPTransceiver := mkTransceiver {
  sender : option ptr;
  receiver : option ptr;
  direction : RTPTransceiverDirection;
  stopped : bool;
  kind : RTPCodecType
}.

Record Heap := mkHeap {
  transceivers : gmap ptr RTPTransceiver;
  senders : gmap ptr RTPSender;
  tracks : gmap ptr Track
}.

(** The errors the negotiation layer returns.  The three [rtcerr] wrappers
    carry the arguments of their message; [errorString] is what
    [fmt.Errorf] yields for a constant format. *)
Inductive error :=
| TypeError (trackK transceiverK : RTPCodecType)
| InvalidStateError (msg : string)
| InvalidModificationError (currentMime newMime : string)
| errorString (msg : string).

(** How a call ends: it returns (with the heap it leaves behind), it
    panics on a nil dereference, or it blocks for ever on a mutex the very
    same goroutine already holds. *)
Inductive outcome (A : Type) :=
| Returned (a : A) (h : Heap)
| Panicked
| Deadlocked.
Arguments Returned {A} a h.
Arguments Panicked {A}.
Arguments Deadlocked {A}.

Definition bind {A B} (m : outcome A) (k : A -> Heap -> outcome B) : outcome B :=
  match m with
  | Returned a h => k a h
  | Panicked => Panicked
  | Deadlocked => Deadlocked
  end.

(** ** Field updates *)

Definition withSender (s : option ptr) (t : RTPTransceiver) : RTPTransceiver :=
  mkTransceiver s (receiver t) (direction t) (stopped t) (kind t).

Definition withReceiver (r : option ptr) (t : RTPTransceiver) : RTPTransceiver :=
  mkTransceiver (sender t) r (direction t) (stopped t) (kind t).

Definition withDirection (d : RTPTransceiverDirection) (t : RTPTransceiver)
  : RTPTransceiver :=
  mkTransceiver (sender t) (receiver t) d (stopped t) (kind t).

Definition withTrack (tk : option ptr) (s : RTPSender) : RTPSender :=
  mkSender tk (transceiver s).

Definition withTransceiver (t : option ptr) (s : RTPSender) : RTPSender :=
  mkSender (track s) t.

Definition withActive (l : list ptr) (n : Z) (k : Track) : Track :=
  mkTrack (trackKind k) (ssrc k) (codecMimeType k) (trackReceiver k) l n.

Definition storeTransceiver (p : ptr) (t : RTPTransceiver) (h : Heap) : Heap :=
  mkHeap (<[p := t]> (transceivers h)) (senders h) (tracks h).

Definition storeSender (p : ptr) (s : RTPSender) (h : Heap) : Heap :=
  mkHeap (transceivers h) (<[p := s]> (senders h)) (tracks h).

Definition storeTrack (p : ptr) (k : Track) (h : Heap) : Heap :=
  mkHeap (transceivers h) (senders h) (<[p := k]> (tracks h)).

(** ** rtptransceiver.go *)

(** [t.Sender()]: nil when nothing, or a nil pointer, was stored. *)
Definition Sender (t : ptr) (h : Heap) : option ptr :=
  match transceivers h !! t with
  | Some tr => sender tr
  | None => None
  end.

(** [t.setSender(s)].  Both [s.mu] and the current sender's [mu] are taken
    and held until return, so handing the transceiver the sender it already
    has locks one mutex twice. *)
Definition setSender (t : ptr) (s : option ptr) (h : Heap) : outcome unit :=
  match transceivers h !! t with
  | None => Panicked
  | Some tr =>
    match
      match s with
      | Some sp =>
        match senders h !! sp with
        | Some sd => Some (storeSender sp (withTransceiver (Some t) sd) h)
        | None => None
        end
      | None => Some h
      end
    with
    | None => Panicked
    | Some h1 =>
      match sender tr with
      | Some cur =>
        if decide (s = Some cur) then Deadlocked else
        match senders h1 !! cur with
        | Some cd =>
          Returned tt
            (storeTransceiver t (withSender s tr)
               (storeSender cur (withTransceiver None cd) h1))
        | None => Panicked
        end
      | None => Returned tt (storeTransceiver t (withSender s tr) h1)
      end
    end
  end.

Definition setReceiver (t : ptr) (r : option ptr) (h : Heap) : outcome unit :=
  match transceivers h !! t with
  | Some tr => Returned tt (storeTransceiver t (withReceiver r tr) h)
  | None => Panicked
  end.

Definition setDirection (t : ptr) (d : RTPTransceiverDirection) (h : Heap)
  : outcome unit :=
  match transceivers h !! t with
  | Some tr => Returned tt (storeTransceiver t (withDirection d tr) h)
  | None => Panicked
  end.

Definition invalidStateChange : error :=
  errorString "invalid state change in RTPTransceiver.setSending".

(** [t.setSendingTrack(track)].  The sender's track is assigned, and for
    a nil track the sender is detached, before the direction is looked
    at. *)
Definition setSendingTrack (t : ptr) (tk : option ptr) (h : Heap)
  : outcome (option error) :=
  match Sender t h with
  | None => Panicked
  | Some s =>
    match senders h !! s with
    | None => Panicked
    | Some sd =>
      let h1 := storeSender s (withTrack tk sd) h in
      bind (match tk with
            | None => setSender t None h1
            | Some _ => Returned tt h1
            end)
        (fun _ h2 =>
           match transceivers h2 !! t with
           | None => Panicked
           | Some tr =>
             match tk, direction tr with
             | Some _, RTPTransceiverDirectionRecvonly =>
               bind (setDirection t RTPTransceiverDirectionSendrecv h2)
                    (fun _ h3 => Returned None h3)
             | Some _, RTPTransceiverDirectionInactive =>
               bind (setDirection t RTPTransceiverDirectionSendonly h2)
                    (fun _ h3 => Returned None h3)
             | None, RTPTransceiverDirectionSendrecv =>
               bind (setDirection t RTPTransceiverDirectionRecvonly h2)
                    (fun _ h3 => Returned None h3)
             | None, RTPTransceiverDirectionSendonly =>
               bind (setDirection t RTPTransceiverDirectionInactive h2)
                    (fun _ h3 => Returned None h3)
             | _, _ => Returned (Some invalidStateChange) h2
             end
           end)
    end
  end.

Definition Receiver (t : ptr) (h : Heap) : option ptr :=
  match transceivers h !! t with
  | Some tr => receiver tr
  | None => None
  end.

(** The loop of [replaceTrack] over the old track's active senders: every
    entry other than [s] is appended to [filtered], every entry equal to
    [s] takes one off the count. *)
Fixpoint removeSender (s : ptr) (l filtered : list ptr) (count : Z)
  : list ptr * Z :=
  match l with
  | [] => (filtered, count)
  | x :: l' =>
    if decide (x ≠ s) then removeSender s l' (filtered ++ [x]) count
    else removeSender s l' filtered (count - 1)
  end.

Definition stoppedError : error := InvalidStateError "transceiver is stopped".
Definition remoteTrackError : error := errorString "cannot replace with remote track".

Section Transceiver.

(** [RTPSender.Stop] and [RTPReceiver.Stop] live in files that are not
    part of the sources at hand: they are parameters of the model.  Both
    are methods on a pointer they dereference, so a call on a nil sender or
    receiver is a panic. *)
Variable senderStop : ptr -> Heap -> outcome (option error).
Variable receiverStop : ptr -> Heap -> outcome (option error).

(** [t.Stop()] *)
Definition Stop (t : ptr) (h : Heap) : outcome (option error) :=
  bind (match Sender t h with
        | Some s => senderStop s h
        | None => Returned None h
        end)
    (fun e h1 =>
       match e with
       | Some err => Returned (Some err) h1
       | None =>
         bind (match Receiver t h1 with
               | Some r => receiverStop r h1
               | None => Returned None h1
               end)
           (fun e' h2 =>
              match e' with
              | Some err => Returned (Some err) h2
              | None =>
                bind (setDirection t RTPTransceiverDirectionInactive h2)
                     (fun _ h3 => Returned None h3)
              end)
       end).

(** The tail of [replaceTrack], from [sender.mu.Lock()] on: the swap of
    a live sender from its track to [new]. *)
Definition swapTrack (s new : ptr) (h : Heap) : outcome (option error) :=
  match senders h !! s with
  | None => Panicked
  | Some sd =>
    match tracks h !! new with
    | None => Panicked
    | Some kn =>
      if decide (trackReceiver kn ≠ None) then
        Returned (Some remoteTrackError) h
      else
        match
          match track sd with
          | None => Returned None h
          | Some old =>
            (* sender.track.mu.Lock() while track.mu is held *)
            if decide (old = new) then Deadlocked else
            match tracks h !! old with
            | None => Panicked
            | Some ko =>
              if decide (codecMimeType ko ≠ codecMimeType kn) then
                Returned
                  (Some (InvalidModificationError (codecMimeType ko)
                                                  (codecMimeType kn))) h
              else
                (* make([]*RTPSender, 0, len(...)-1) *)
                if decide (activeSenders ko = []) then Panicked else
                let '(filtered, count) :=
                  removeSender s (activeSenders ko) [] (totalSenderCount ko) in
                Returned None (storeTrack old (withActive filtered count ko) h)
            end
          end
        with
        | Returned (Some err) h1 => Returned (Some err) h1
        | Returned None h1 =>
          match tracks h1 !! new with
          | None => Panicked
          | Some kn1 =>
            Returned None
              (storeTrack new
                 (withActive (activeSenders kn1 ++ [s])
                             (totalSenderCount kn1 + 1) kn1)
                 (storeSender s (withTrack (Some new) sd) h1))
          end
        | Panicked => Panicked
        | Deadlocked => Deadlocked
        end
    end
  end.

(** [t.replaceTrack(track)] *)
Definition replaceTrack (t : ptr) (tk : option ptr) (h : Heap)
  : outcome (option error) :=
  match transceivers h !! t with
  | None => Panicked
  | Some tr =>
    let afterKindCheck :=
      if stopped tr then Returned (Some stoppedError) h
      else if decide (direction tr ≠ RTPTransceiverDirectionSendrecv
                      ∧ direction tr ≠ RTPTransceiverDirectionSendonly) then
        (* not sending: just set the track *)
        setSendingTrack t tk h
      else
        match tk with
        | None =>
          match sender tr with
          | None => Panicked
          | Some s =>
            bind (senderStop s h)
              (fun e h1 =>
                 match e with
                 | Some err => Returned (Some err) h1
                 | None => setSendingTrack t None h1
                 end)
          end
        | Some new =>
          match sender tr with
          | None => Panicked
          | Some s => swapTrack s new h
          end
        end in
    match tk with
    | None => afterKindCheck
    | Some p =>
      match tracks h !! p with
      | None => Panicked
      | Some k =>
        if decide (trackKind k ≠ kind tr) then
          Returned (Some (TypeError (trackKind k) (kind tr))) h
        else afterKindCheck
      end
    end
  end.

End Transceiver.

(** ** The transceiver matcher *)

Definition getPreferredDirections (remoteDirection : RTPTransceiverDirection)
  : list RTPTransceiverDirection :=
  match remoteDirection with
  | RTPTransceiverDirectionSendrecv =>
    [RTPTransceiverDirectionRecvonly; RTPTransceiverDirectionSendrecv]
  | RTPTransceiverDirectionSendonly =>
    [RTPTransceiverDirectionRecvonly; RTPTransceiverDirectionSendrecv]
  | RTPTransceiverDirectionRecvonly =>
    [RTPTransceiverDirectionSendonly; RTPTransceiverDirectionSendrecv]
  | RTPTransceiverDirectionInactive => []
  end.

Inductive scanResult :=
| ScanFound (i : nat) (t : ptr)
| ScanNone
| ScanPanicked.

(** The inner loop, [for i := range localTransceivers], entered at index
    [i] with [l] the entries from [i] on. *)
Fixpoint scanFrom (h : Heap) (remoteKind : RTPCodecType)
    (possibleDirection : RTPTransceiverDirection) (l : list ptr) (i : nat)
  : scanResult :=
  match l with
  | [] => ScanNone
  | t :: l' =>
    match transceivers h !! t with
    | None => ScanPanicked
    | Some tr =>
      if decide (kind tr ≠ remoteKind ∨ possibleDirection ≠ direction tr)
      then scanFrom h remoteKind possibleDirection l' (S i)
      else ScanFound i t
    end
  end.

(** The transceiver the matcher makes up when the pool has none to offer:
    [&RTPTransceiver{kind: remoteKind, direction: inactive}]. *)
Definition inactiveTransceiver (remoteKind : RTPCodecType) : RTPTransceiver :=
  mkTransceiver None None RTPTransceiverDirectionInactive false remoteKind.

(** The address [&RTPTransceiver{...}] allocates: one the heap does not
    use yet. *)
Definition newTransceiverAddr (h : Heap) : ptr := fresh (dom (transceivers h)).

(** The outer loop, over the preferred directions still to try.  The pool
    returned on a hit is [append(pool[:i], pool[i+1:]...)]. *)
Fixpoint pluckFirst (h : Heap) (remoteKind : RTPCodecType)
    (directions : list RTPTransceiverDirection) (localTransceivers : list ptr)
  : outcome (ptr * list ptr) :=
  match directions with
  | [] =>
    let p := newTransceiverAddr h in
    Returned (p, localTransceivers)
             (storeTransceiver p (inactiveTransceiver remoteKind) h)
  | possibleDirection :: rest =>
    match scanFrom h remoteKind possibleDirection localTransceivers 0 with
    | ScanFound i t =>
      Returned (t, take i localTransceivers ++ drop (S i) localTransceivers) h
    | ScanNone => pluckFirst h remoteKind rest localTransceivers
    | ScanPanicked => Panicked
    end
  end.

Definition satisfyTypeAndDirection (remoteKind : RTPCodecType)
    (remoteDirection : RTPTransceiverDirection) (localTransceivers : list ptr)
    (h : Heap) : outcome (ptr * list ptr) :=
  pluckFirst h remoteKind (getPreferredDirections remoteDirection)
             localTransceivers.

(** ** RTP packets *)

(** A Go [byte]; a Go [string] is a sequence of them. *)
Definition byte := ascii.

Definition wrap32 (z : Z) : Z := z mod 2 ^ 32.
Definition wrap16 (z : Z) : Z := z mod 2 ^ 16.
Definition wrap8 (z : Z) : Z := z mod 2 ^ 8.

(** [rtp.Packet] of the pion/rtp library the examples import: the header
    fields the relays touch, the list of header extensions as pairs of id
    and payload, and the payload. *)
Record Packet := mkPacket {
  Extension : bool;
  ExtensionProfile : Z;
  Extensions : list (Z * list byte);
  SequenceNumber : Z;
  Timestamp : Z;
  SSRC : Z;
  Payload : list byte
}.

(** [Header.GetExtension] of pion/rtp: the payload of the first extension
    carrying [id], nil when the packet has no extension or none with this
    id. *)
Definition GetExtension (id : Z) (p : Packet) : list byte :=
  if Extension p then
    match list_find (fun e => fst e = id) (Extensions p) with
    | Some (_, e) => snd e
    | None => []
    end
  else [].

Inductive readResult := ReadOk (rtp : Packet) | ReadFailed.
Inductive writeResult := WriteOk | WriteClosedPipe | WriteFailed.

(** One call of [WriteRTP]: the track written to, the packet handed over,
    and what the call answered. *)
Record written := mkWritten {
  target : ptr;
  packet : Packet;
  answer : writeResult
}.

(** How far a worker got on the events it was fed: still looping (blocked
    on the next read), or dead from a panic. *)
Inductive workerStatus := Looping | Dead.

(** [track.SSRC()] *)
Definition trackSSRC (p : ptr) (h : Heap) : option Z := ssrc <$> (tracks h !! p).

(** ** The echo relay (the track-switching example's [main.go]) *)

Definition withSSRC (v : Z) (p : Packet) : Packet :=
  mkPacket (Extension p) (ExtensionProfile p) (Extensions p)
           (SequenceNumber p) (Timestamp p) v (Payload p).

(** What one turn of a packet loop meets: the answer of [ReadRTP], the heap
    as it is during this turn, and the answer [WriteRTP] will give. *)
Record pumpEvent := mkPumpEvent {
  incoming : readResult;
  now : Heap;
  outgoing : writeResult
}.


(** The [for] loop of the [OnTrack] handler. *)
Fixpoint echoPump (outputTrack outputTrack1 : ptr) (events : list pumpEvent)
  : list written * workerStatus :=
  match events with
  | [] => ([], Looping)
  | ev :: rest =>
    match incoming ev with
    | ReadFailed => ([], Dead)
    | ReadOk rtp =>
      match trackSSRC outputTrack1 (now ev) with
      | None => ([], Dead)
      | Some v =>
        let w := mkWritten outputTrack (withSSRC v rtp) (outgoing ev) in
        match outgoing ev with
        | WriteFailed => ([w], Dead)
        | _ =>
          let '(ws, status) := echoPump outputTrack outputTrack1 rest in
          (w :: ws, status)
        end
      end
    end
  end.


(** ** The simulcast relay (examples/simulcast-hack/main.go) *)

Definition withTimestamp (v : Z) (p : Packet) : Packet :=
  mkPacket (Extension p) (ExtensionProfile p) (Extensions p)
           (SequenceNumber p) v (SSRC p) (Payload p).

(** The variables the simulcast workers share: the selected stream id and
    the channel of packets. *)
Record relayShared := mkShared {
  currRTPStreamID : byte;
  packets : list Packet
}.

(** The locals of one [OnTrack] packet loop. *)
Record pumpState := mkPumpState {
  lastTimestamp : Z;
  isCurrTrack : bool
}.

Definition pumpStart : pumpState := mkPumpState 0 false.

(** What one turn of the loop does with the packet it read. *)
Inductive pumpAction :=
| Skip                                  (* not the selected stream *)
| Send (rtp : Packet) (pli : bool)      (* [packets <- rtp], after a PLI or not *)
| MissingStreamID.                      (* panic *)

(** One turn of the simulcast [OnTrack] loop on the packet [rtp], with
    [ridExtValue] the id of the stream-id extension and [selected] the
    value of [currRTPStreamID] the turn reads. *)
Definition pumpTurn (ridExtValue : Z) (selected : byte) (st : pumpState)
    (rtp : Packet) : pumpState * pumpAction :=
  let oldTimestamp := Timestamp rtp in
  let rtp1 :=
    if decide (lastTimestamp st = 0) then withTimestamp 0 rtp
    else withTimestamp (wrap32 (Timestamp rtp - lastTimestamp st)) rtp in
  let st1 := mkPumpState oldTimestamp (isCurrTrack st) in
  match GetExtension (wrap8 ridExtValue) rtp1 with
  | [] => (st1, MissingStreamID)
  | b :: _ =>
    if decide (b ≠ selected) then (mkPumpState oldTimestamp false, Skip)
    else (mkPumpState oldTimestamp true, Send rtp1 (negb (isCurrTrack st)))
  end.

(** The loop over the packets read, each with the selected stream id of
    its turn.  It ends on the first panic: a failed read or a packet
    without stream id. *)
Fixpoint pumpRun (ridExtValue : Z) (st : pumpState)
    (reads : list (readResult * byte))
  : list pumpAction * pumpState * workerStatus :=
  match reads with
  | [] => ([], st, Looping)
  | (ReadFailed, _) :: _ => ([], st, Dead)
  | (ReadOk rtp, selected) :: rest =>
    let '(st', a) := pumpTurn ridExtValue selected st rtp in
    match a with
    | MissingStreamID => ([a], st', Dead)
    | _ =>
      let '(acts, final, status) := pumpRun ridExtValue st' rest in
      (a :: acts, final, status)
    end
  end.

(** JSON decoding is the standard library's; the handler sees its
    verdict. *)
Inductive unmarshalResult :=
| UnmarshalFailed
| Unmarshalled (RID : string).

(** The [OnMessage] handler: [currRTPStreamID = v.RID[0]].  [None] is a
    panic, from the decoder's error or from indexing an empty string. *)
Definition onMessage (m : unmarshalResult) (sh : relayShared)
  : option relayShared :=
  match m with
  | UnmarshalFailed => None
  | Unmarshalled RID =>
    match RID with
    | EmptyString => None
    | String c _ => Some (mkShared c (packets sh))
    end
  end.

(** The locals of the consumer goroutine. *)
Record consumerState := mkConsumerState {
  currTimestamp : Z;
  seq : Z
}.

Definition consumerStart : consumerState := mkConsumerState 0 0.

(** The packet the consumer hands to [WriteRTP] for the dequeued [p]. *)
Definition rewritePacket (outSSRC : Z) (st : consumerState) (p : Packet)
  : Packet :=
  mkPacket false 0 [] (seq st) (wrap32 (currTimestamp st + Timestamp p))
           outSSRC (Payload p).

(** What one turn of the consumer meets: the packet taken off the channel,
    the heap as it is during this turn, and the answer [WriteRTP] will
    give. *)
Record queueEvent := mkQueueEvent {
  dequeued : Packet;
  qnow : Heap;
  qanswer : writeResult
}.

(** The consumer loop, [for i := uint16(0); ; i++]. *)
Fixpoint consume (outputTrack : ptr) (st : consumerState)
    (events : list queueEvent) : list written * workerStatus :=
  match events with
  | [] => ([], Looping)
  | ev :: rest =>
    match trackSSRC outputTrack (qnow ev) with
    | None => ([], Dead)
    | Some v =>
      let w := mkWritten outputTrack (rewritePacket v st (dequeued ev))
                         (qanswer ev) in
      let st' :=
        mkConsumerState (wrap32 (currTimestamp st + Timestamp (dequeued ev)))
                        (wrap16 (seq st + 1)) in
      match qanswer ev with
      | WriteFailed => ([w], Dead)
      | _ =>
        let '(ws, status) := consume outputTrack st' rest in
        (w :: ws, status)
      end
    end
  end.

(** ** The specification's vocabulary *)

(** [t.Direction()] in a heap where [t] is allocated. *)
Definition Direction (t : ptr) (h : Heap) : option RTPTransceiverDirection :=
  direction <$> (transceivers h !! t).

(** The table of the specification, section 4.1: the next direction for
    a current direction and whether the track becomes non-null; [None]
    where the table says invalid. *)
Definition specDirectionTable (current : RTPTransceiverDirection)
    (nonNull : bool) : option RTPTransceiverDirection :=
  match current, nonNull with
  | RTPTransceiverDirectionRecvonly, true => Some RTPTransceiverDirectionSendrecv
  | RTPTransceiverDirectionInactive, true => Some RTPTransceiverDirectionSendonly
  | RTPTransceiverDirectionSendrecv, false => Some RTPTransceiverDirectionRecvonly
  | RTPTransceiverDirectionSendonly, false => Some RTPTransceiverDirectionInactive
  | _, _ => None
  end.

Definition isNonNull (tk : option ptr) : bool :=
  match tk with Some _ => true | None => false end.

(** The heap [setSendingTrack] has built when it reaches its [switch]. *)
Definition afterBinding (t : ptr) (tk : option ptr) (tr : RTPTransceiver)
    (s : ptr) (sd : RTPSender) (h : Heap) : Heap :=
  match tk with
  | Some _ => storeSender s (withTrack tk sd) h
  | None =>
    storeTransceiver t (withSender None tr)
      (storeSender s (withTransceiver None (withTrack None sd))
         (storeSender s (withTrack None sd) h))
  end.

(** ** Scenarios *)

Module Scenario.

Definition t1 : ptr := 1%nat.
Definition sender1 : ptr := 10%nat.
Definition sender2 : ptr := 11%nat.
Definition trackA : ptr := 20%nat.
Definition trackB : ptr := 21%nat.
Definition trackC : ptr := 22%nat.
Definition remoteTrack : ptr := 23%nat.
Definition receiver1 : ptr := 40%nat.

Definition theTracks (senders_of_A : list ptr) (count_of_A : Z)
  : gmap ptr Track :=
  <[trackA := mkTrack RTPCodecTypeVideo 1111 "video/VP8" None
                      senders_of_A count_of_A]>
  (<[trackB := mkTrack RTPCodecTypeVideo 2222 "video/VP8" None [] 0]>
  (<[trackC := mkTrack RTPCodecTypeVideo 3333 "video/H264" None [] 0]>
  (<[remoteTrack := mkTrack RTPCodecTypeVideo 4444 "video/VP8"
                            (Some receiver1) [] 0]> ∅))).

(** One video transceiver in direction [d] whose sender is bound to
    [bound]; track A lists [senders_of_A]. *)
Definition heapWith (d : RTPTransceiverDirection) (bound : option ptr)
    (senders_of_A : list ptr) (count_of_A : Z) : Heap :=
  mkHeap {[ t1 := mkTransceiver (Some sender1) None d false RTPCodecTypeVideo ]}
         {[ sender1 := mkSender bound (Some t1) ]}
         (theTracks senders_of_A count_of_A).

(** Scenario C and D of the specification: sending track A. *)
Definition sendingA : Heap :=
  heapWith RTPTransceiverDirectionSendrecv (Some trackA) [sender1] 1.

(** A receive-only transceiver whose sender has no track yet. *)
Definition receiving : Heap :=
  heapWith RTPTransceiverDirectionRecvonly None [] 0.

(** A receive-only transceiver whose sender still holds track A. *)
Definition receivingWithA : Heap :=
  heapWith RTPTransceiverDirectionRecvonly (Some trackA) [sender1] 1.

(** Sending track A, which lists another sender but not this one: the
    state [setSendingTrack] leaves when it binds a track. *)
Definition sendingUnlisted : Heap :=
  heapWith RTPTransceiverDirectionSendrecv (Some trackA) [sender2] 1.

Definition stopOk : ptr -> Heap -> outcome (option error) :=
  fun _ h => Returned None h.

(** Sending track A to which the sender is bound but which holds an
    empty list of active senders. *)
Definition sendingEmpty : Heap :=
  heapWith RTPTransceiverDirectionSendrecv (Some trackA) [] 0.

(** Scenario C once track B has replaced track A. *)
Definition trackBListed : Track :=
  mkTrack RTPCodecTypeVideo 2222 "video/VP8" None [sender1] 1.

Definition afterSwap : Heap :=
  mkHeap {[ t1 := mkTransceiver (Some sender1) None
                    RTPTransceiverDirectionSendrecv false RTPCodecTypeVideo ]}
         {[ sender1 := mkSender (Some trackB) (Some t1) ]}
         (<[trackB := trackBListed]> (theTracks [] 0)).

End Scenario.


(** ** Claims as the specification words them *)

(** The swap step of [replaceTrack] as claimed: for a sending, running
    transceiver whose sender holds a track, and a new outbound track of the
    right kind, differing MIME types give the renegotiation error and an
    untouched heap; otherwise the sender leaves the old track (count one
    less), is bound to the new track and joins it (count one more), and
    the direction stays. *)
Definition swapAsStated (stopS : ptr -> Heap -> outcome (option error))
    (t new : ptr) (h : Heap) : Prop :=
  forall tr s sd old ko kn,
    transceivers h !! t = Some tr ->
    sender tr = Some s ->
    senders h !! s = Some sd ->
    track sd = Some old ->
    tracks h !! old = Some ko ->
    tracks h !! new = Some kn ->
    stopped tr = false ->
    (direction tr = RTPTransceiverDirectionSendrecv
     \/ direction tr = RTPTransceiverDirectionSendonly) ->
    trackKind kn = kind tr ->
    trackReceiver kn = None ->
    if decide (codecMimeType ko = codecMimeType kn) then
      exists h' ko' kn',
        replaceTrack stopS t (Some new) h = Returned None h' /\
        tracks h' !! old = Some ko' /\
        (s ∉ activeSenders ko') /\
        totalSenderCount ko' = totalSenderCount ko - 1 /\
        track <$> (senders h' !! s) = Some (Some new) /\
        tracks h' !! new = Some kn' /\
        (s ∈ activeSenders kn') /\
        totalSenderCount kn' = totalSenderCount kn + 1 /\
        Direction t h' = Some (direction tr)
    else
      replaceTrack stopS t (Some new) h =
      Returned (Some (InvalidModificationError (codecMimeType ko)
                                               (codecMimeType kn))) h.

(** ** Observation points *)

(** Every track's count is the length of its list of active senders. *)
Definition tracksConsistent (h : Heap) : Prop :=
  forall p k,
    tracks h !! p = Some k ->
    totalSenderCount k = Z.of_nat (length (activeSenders k)).

(** What is asked of the two [Stop] methods the model takes as
    parameters. *)
Definition keepsTracksConsistent (stop : ptr -> Heap -> outcome (option error))
  : Prop :=
  forall p h e h',
    tracksConsistent h -> stop p h = Returned e h' -> tracksConsistent h'.

(** One call into the negotiation layer that returns, from the heap it
    finds to the heap it leaves. *)
Inductive call (senderStop receiverStop : ptr -> Heap -> outcome (option error))
  : Heap -> Heap -> Prop :=
| call_replaceTrack t tk h e h' :
    replaceTrack senderStop t tk h = Returned e h' ->
    call senderStop receiverStop h h'
| call_Stop t h e h' :
    Stop senderStop receiverStop t h = Returned e h' ->
    call senderStop receiverStop h h'
| call_setSendingTrack t tk h e h' :
    setSendingTrack t tk h = Returned e h' ->
    call senderStop receiverStop h h'
| call_setSender t s h u h' :
    setSender t s h = Returned u h' ->
    call senderStop receiverStop h h'
| call_setReceiver t r h u h' :
    setReceiver t r h = Returned u h' ->
    call senderStop receiverStop h h'
| call_setDirection t d h u h' :
    setDirection t d h = Returned u h' ->
    call senderStop receiverStop h h'
| call_satisfyTypeAndDirection k d pool h r h' :
    satisfyTypeAndDirection k d pool h = Returned r h' ->
    call senderStop receiverStop h h'.

(** ** The matcher in the specification's words *)

(** The transceiver at [t] has kind [k] and direction [d]. *)
Definition matches (h : Heap) (k : RTPCodecType) (d : RTPTransceiverDirection)
    (t : ptr) : Prop :=
  exists tr, transceivers h !! t = Some tr /\ kind tr = k /\ direction tr = d.

(** [t], at index [i], is the first entry of the pool that matches. *)
Definition firstMatch (h : Heap) (k : RTPCodecType)
    (d : RTPTransceiverDirection) (pool : list ptr) (i : nat) (t : ptr) : Prop :=
  pool !! i = Some t /\ matches h k d t /\
  forall j t', (j < i)%nat -> pool !! j = Some t' -> ~ matches h k d t'.

Definition noMatch (h : Heap) (k : RTPCodecType) (d : RTPTransceiverDirection)
    (pool : list ptr) : Prop :=
  forall t, t ∈ pool -> ~ matches h k d t.

(** Every entry of the pool points to a transceiver. *)
Definition poolAllocated (h : Heap) (pool : list ptr) : Prop :=
  Forall (fun t => is_Some (transceivers h !! t)) pool.

(** ** The relays in the specification's words *)


(** The sum of the deltas the packets carry. *)
Definition sumTimestamps (ps : list Packet) : Z :=
  foldr (fun p acc => Timestamp p + acc) 0 ps.

(** The consumer as claimed: the [i]-th packet written has for timestamp
    the sum of the deltas dequeued so far, for sequence number [i], the
    SSRC of the outbound track and no extension left. *)
Definition consumerAsStated (outputTrack : ptr) (events : list queueEvent)
  : Prop :=
  forall i w ev,
    fst (consume outputTrack consumerStart events) !! i = Some w ->
    events !! i = Some ev ->
    Timestamp (packet w) = sumTimestamps (dequeued <$> take (S i) events) /\
    SequenceNumber (packet w) = Z.of_nat i /\
    trackSSRC outputTrack (qnow ev) = Some (SSRC (packet w)) /\
    Extension (packet w) = false /\
    ExtensionProfile (packet w) = 0 /\
    Extensions (packet w) = [].

(** The original timestamp of the packet received just before the [i]-th
    one, as the loop has it in [lastTimestamp]: 0 before the first. *)
Definition previousOriginal (reads : list (readResult * byte)) (i : nat) : Z :=
  match i with
  | O => 0
  | S j =>
    match reads !! j with
    | Some (ReadOk q, _) => Timestamp q
    | _ => 0
    end
  end.

Module Relay.

(** A packet of stream [rid] (extension 4) with the given SSRC, sequence
    number and timestamp. *)
Definition rtpOf (rid : byte) (ssrcIn seqIn ts : Z) : Packet :=
  mkPacket true 48862 [(4, [rid])] seqIn ts ssrcIn [].

Definition plain (ts : Z) : Packet := rtpOf "a"%char 9999 0 ts.


(** Two packets whose deltas add up to 2^32. *)
Definition wrappingQueue : list queueEvent :=
  [mkQueueEvent (plain 4294967295) Scenario.sendingA WriteOk;
   mkQueueEvent (plain 1) Scenario.sendingA WriteOk].

(** Three packets of one inbound track while stream a is selected: the
    second belongs to stream b and is dropped. *)
Definition threeReads : list (readResult * byte) :=
  [(ReadOk (rtpOf "a"%char 9999 1 1000), "a"%char);
   (ReadOk (rtpOf "b"%char 9999 2 4000), "a"%char);
   (ReadOk (rtpOf "a"%char 9999 3 4500), "a"%char)].

End Relay.

(** ** Proof automation *)

(** Case analysis on a call that returned. *)
Ltac returned H :=
  repeat (simpl in H;
          match type of H with
          | context [match ?x with _ => _ end] => destruct x eqn:?
          | context [if ?x then _ else _] => destruct x eqn:?
          end);
  try discriminate H;
  try (injection H as <- <-).

(** ** Back-references and the fields no call assigns *)

(** Every sender that names a transceiver is the sender this transceiver
    holds. *)
Definition backrefsAccurate (h : Heap) : Prop :=
  forall s sd t,
    senders h !! s = Some sd ->
    transceiver sd = Some t ->
    Sender t h = Some s.

Definition keepsBackrefs (stop : ptr -> Heap -> outcome (option error)) : Prop :=
  forall p h e h',
    backrefsAccurate h -> stop p h = Returned e h' -> backrefsAccurate h'.

(** From [h] to [h'] every transceiver stays allocated and keeps its kind
    and its [stopped] flag. *)
Definition transceiversKept (h h' : Heap) : Prop :=
  forall t tr,
    transceivers h !! t = Some tr ->
    exists tr',
      transceivers h' !! t = Some tr' /\
      kind tr' = kind tr /\
      stopped tr' = stopped tr.

Definition keepsTransceivers (stop : ptr -> Heap -> outcome (option error))
  : Prop :=
  forall p h e h', stop p h = Returned e h' -> transceiversKept h h'.

Module After.

(** Scenario C's transceiver once [Stop] has returned. *)
Definition stopped : Heap :=
  Scenario.heapWith RTPTransceiverDirectionInactive (Some Scenario.trackA)
                    [Scenario.sender1] 1.

End After.

(** ** The rotation loop of the echo relay *)

(** [n] turns of the loop that closes the echo example's [main]: according
    to [curr] the sender is asked for the first or the second outbound
    track, an error panics, and [curr] moves on, back to 0 once it reaches
    2.  [RTPSender.ReplaceTrack] lives in a file that is not part of the
    sources at hand: it is the parameter [ReplaceTrack]. *)
Fixpoint rotate (ReplaceTrack : option ptr -> Heap -> outcome (option error))
    (outputTrack1 outputTrack2 : ptr) (n : nat) (curr : Z) (h : Heap)
  : outcome Z :=
  match n with
  | O => Returned curr h
  | S n' =>
    bind (if decide (curr = 0) then ReplaceTrack (Some outputTrack1) h
          else if decide (curr = 1) then ReplaceTrack (Some outputTrack2) h
          else Returned None h)
      (fun e h1 =>
         match e with
         | Some _ => Panicked
         | None =>
           let curr1 := curr + 1 in
           rotate ReplaceTrack outputTrack1 outputTrack2 n'
                  (if decide (curr1 >= 2) then 0 else curr1) h1
         end)
  end.

(** The transceiver [t] is running and sending, its sender [s] holds the
    outbound track [bound], which lists at least one active sender, and
    [other] is another outbound track of the same kind and codec. *)
Definition readyToSwap (t s bound other : ptr) (h : Heap) : Prop :=
  exists tr sd kb ko,
    transceivers h !! t = Some tr /\
    sender tr = Some s /\
    stopped tr = false /\
    (direction tr = RTPTransceiverDirectionSendrecv
     \/ direction tr = RTPTransceiverDirectionSendonly) /\
    senders h !! s = Some sd /\
    track sd = Some bound /\
    tracks h !! bound = Some kb /\
    tracks h !! other = Some ko /\
    trackKind kb = kind tr /\
    trackKind ko = kind tr /\
    trackReceiver kb = None /\
    trackReceiver ko = None /\
    codecMimeType kb = codecMimeType ko /\
    activeSenders kb <> [] /\
    bound <> other.

(** ** Events a packet loop survives *)

(** The echo loop gets past this event: a packet was read, the first
    outbound track is there to give its SSRC, and the write did not fail
    other than on a closed pipe. *)
Definition survivable (outputTrack1 : ptr) (ev : pumpEvent) : Prop :=
  (exists rtp, incoming ev = ReadOk rtp) /\
  is_Some (trackSSRC outputTrack1 (now ev)) /\
  outgoing ev <> WriteFailed.

(** The write the echo loop still makes on the event that kills it: one
    when a packet was read and only the write failed, none otherwise. *)
Definition lastWrite (outputTrack outputTrack1 : ptr) (ev : pumpEvent)
  : list written :=
  match incoming ev, trackSSRC outputTrack1 (now ev) with
  | ReadOk rtp, Some v => [mkWritten outputTrack (withSSRC v rtp) (outgoing ev)]
  | _, _ => []
  end.

(** The packets a run of the simulcast packet loop has put on the
    channel, in order. *)
Definition sent (acts : list pumpAction) : list Packet :=
  omap (fun a => match a with Send p _ => Some p | _ => None end) acts.

(** The packet carries the stream id [selected] in extension
    [ridExtValue]. *)
Definition ofStream (ridExtValue : Z) (selected : byte) (p : Packet) : Prop :=
  exists rest, GetExtension (wrap8 ridExtValue) p = selected :: rest.

(** Whether the action before the [i]-th one put a packet on the channel;
    [start] stands for it before the first action. *)
Definition precededBySend (start : bool) (acts : list pumpAction) (i : nat)
  : bool :=
  match i with
  | O => start
  | S j =>
    match acts !! j with
    | Some (Send _ _) => true
    | _ => false
    end
  end.

(** The packets of one track with their timestamps turned into deltas the
    way the packet loop does it, [last] being the stored timestamp. *)
Fixpoint deltaEncode (last : Z) (ps : list Packet) : list Packet :=
  match ps with
  | [] => []
  | p :: rest =>
    withTimestamp (if decide (last = 0) then 0
                   else wrap32 (Timestamp p - last)) p
    :: deltaEncode (Timestamp p) rest
  end.

Module Stream.

(** Three packets of stream a on one inbound track. *)
Definition packetsOfA : list Packet :=
  [Relay.rtpOf "a"%char 9999 1 1000;
   Relay.rtpOf "a"%char 9999 2 4000;
   Relay.rtpOf "a"%char 9999 3 4500].

(** The same packets as they sit on the channel, timestamps turned into
    deltas. *)
Definition queueOfA : list queueEvent :=
  [mkQueueEvent (Relay.rtpOf "a"%char 9999 1 0) Scenario.sendingA WriteOk;
   mkQueueEvent (Relay.rtpOf "a"%char 9999 2 3000) Scenario.sendingA WriteOk;
   mkQueueEvent (Relay.rtpOf "a"%char 9999 3 500) Scenario.sendingA WriteOk].

End Stream.

(** ** Session descriptions (examples/simulcast-hack/main.go) *)

(** What the example reads of the session descriptions of pion/sdp: the
    media name of a media description and its attributes, each a key and a
    value. *)
Record Attribute := mkAttribute {
  Key : string;
  Value : string
}.

Record MediaDescription := mkMedia {
  Media : string;
  Attributes : list Attribute
}.

(** How the search for the offer's video section ends: with the section,
    or with one of the two panics. *)
Inductive videoSearch :=
| VideoFound (md : MediaDescription)
| NoVideo
| MultipleVideo.

(** The loop over [offerDesc.MediaDescriptions], [offerVideo] being what
    it has found so far, and the test that follows it. *)
Fixpoint scanVideo (offerVideo : option MediaDescription)
    (mds : list MediaDescription) : videoSearch :=
  match mds with
  | [] =>
    match offerVideo with
    | Some md => VideoFound md
    | None => NoVideo
    end
  | md :: rest =>
    if decide (Media md = "video") then
      match offerVideo with
      | Some _ => MultipleVideo
      | None => scanVideo (Some md) rest
      end
    else scanVideo offerVideo rest
  end.

Definition findOfferVideo (mds : list MediaDescription) : videoSearch :=
  scanVideo None mds.

Section Answer.

(** [ridExt.Clone()], the stream-id extmap as an attribute, and
    [strings.Replace(_, "send", "recv", -1)] come from libraries; they are
    parameters here. *)
Variable ridAttr : Attribute.
Variable toRecv : string -> string.

(** The innermost loop, over the attributes of the offer's video section:
    every rid and simulcast attribute is appended to [attrs], its value
    turned from send to recv. *)
Fixpoint appendSimulcast (offerAttrs attrs : list Attribute) : list Attribute :=
  match offerAttrs with
  | [] => attrs
  | offerAttr :: rest =>
    if decide (Key offerAttr = "rid" \/ Key offerAttr = "simulcast") then
      appendSimulcast rest
        (attrs ++ [mkAttribute (Key offerAttr) (toRecv (Value offerAttr))])
    else appendSimulcast rest attrs
  end.

(** The loop over the attributes of one video section of the answer. *)
Fixpoint copyAttributes (offerAttrs mdAttrs attrs : list Attribute)
  : list Attribute :=
  match mdAttrs with
  | [] => attrs
  | attr :: rest =>
    let attrs1 := attrs ++ [attr] in
    copyAttributes offerAttrs rest
      (if decide (Key attr = "rtpmap") then
         appendSimulcast offerAttrs (attrs1 ++ [ridAttr])
       else attrs1)
  end.

(** The loop over the media descriptions of the answer. *)
Definition addSimulcastToAnswer (offerVideo : MediaDescription)
    (mds : list MediaDescription) : list MediaDescription :=
  (fun md =>
     if decide (Media md = "video") then
       mkMedia (Media md)
               (copyAttributes (Attributes offerVideo) (Attributes md) [])
     else md) <$> mds.

(** What follows each rtpmap attribute of the answer's video section. *)
Definition simulcastLines (offerVideo : MediaDescription) : list Attribute :=
  ridAttr ::
  ((fun o => mkAttribute (Key o) (toRecv (Value o)))
     <$> filter (fun o => Key o = "rid" \/ Key o = "simulcast")
                (Attributes offerVideo)).

End Answer.

(** ** The two halves of a direction *)

Definition sends (d : RTPTransceiverDirection) : bool :=
  match d with
  | RTPTransceiverDirectionSendrecv | RTPTransceiverDirectionSendonly => true
  | _ => false
  end.

Definition receives (d : RTPTransceiverDirection) : bool :=
  match d with
  | RTPTransceiverDirectionSendrecv | RTPTransceiverDirectionRecvonly => true
  | _ => false
  end.

(** The sender's [Stop] leaves every direction as it is. *)
Definition keepsDirections (stop : ptr -> Heap -> outcome (option error))
  : Prop :=
  forall p h e h' t, stop p h = Returned e h' -> Direction t h' = Direction t h.

(** The simulcast loop gets past this read: a packet came, and it carries
    a stream-id extension. *)
Definition readable (ridExtValue : Z) (r : readResult * byte) : Prop :=
  exists rtp, fst r = ReadOk rtp /\ GetExtension (wrap8 ridExtValue) rtp <> [].

(** ** The direction table as the specification words it *)

(** The claim for every call: whatever the transceiver at [t] holds,
    [setSendingTrack] returns, with no error and the direction of the table
    where the table has one, with the invalid-state error and the
    direction it found elsewhere. *)
Definition tableAsStated (t : ptr) (tk : option ptr) (h : Heap) : Prop :=
  forall tr,
    transceivers h !! t = Some tr ->
    exists e h',
      setSendingTrack t tk h = Returned e h' /\
      match specDirectionTable (direction tr) (isNonNull tk) with
      | Some d => e = None /\ Direction t h' = Some d
      | None =>
        e = Some invalidStateChange /\ Direction t h' = Some (direction tr)
      end.

(** Scenario C's heap once [replaceTrack(nil)] has returned: the
    transceiver is receive-only and its sender slot is empty. *)
Definition detached : Heap :=
  mkHeap {[ Scenario.t1 := mkTransceiver None None
                             RTPTransceiverDirectionRecvonly false
                             RTPCodecTypeVideo ]}
         {[ Scenario.sender1 := mkSender None None ]}
         (Scenario.theTracks [Scenario.sender1] 1).
(** * Properties *)

(** ** The direction table of setSendingTrack *)

Lemma setSendingTrack_unfold t tk h tr s sd :
  transceivers h !! t = Some tr ->
  sender tr = Some s ->
  senders h !! s = Some sd ->
  setSendingTrack t tk h =
  match specDirectionTable (direction tr) (isNonNull tk) with
  | Some d =>
    Returned None
      (storeTransceiver t
         (withDirection d (match tk with Some _ => tr | None => withSender None tr end))
         (afterBinding t tk tr s sd h))
  | None => Returned (Some invalidStateChange) (afterBinding t tk tr s sd h)
  end.
Proof.
  intros Ht Hs Hsd.
  unfold setSendingTrack, Sender. rewrite Ht, Hs, Hsd.
  destruct tr as [sn rc d st k]; simpl in Hs; subst sn.
  destruct tk as [new|]; simpl.
  - rewrite Ht. destruct d; simpl; unfold setDirection; simpl;
      rewrite ?Ht; reflexivity.
  - unfold setSender; simpl. rewrite Ht; simpl.
    destruct (decide (None = Some s)) as [E|_]; [discriminate E|].
    rewrite lookup_insert_eq. simpl. rewrite lookup_insert_eq.
    destruct d; simpl; unfold setDirection; simpl;
      rewrite ?lookup_insert_eq; reflexivity.
Qed.

(** C4 (amended).  For a call of [setSendingTrack] on a transceiver whose
    sender slot is filled (the slot [replaceTrack] reads as "should always
    be non-nil"), the
    direction afterwards is the table of section 4.1 applied to the
    previous direction and to whether the track is null: recvonly becomes
    sendrecv and inactive becomes sendonly for a non-null track, sendrecv
    becomes recvonly and sendonly becomes inactive for a null one, and the
    call returns no error; in every other case the call returns the error
    "invalid state change" and the direction is the one it was. *)
Theorem setSendingTrack_follows_table t tk h tr s sd :
  transceivers h !! t = Some tr ->
  sender tr = Some s ->
  senders h !! s = Some sd ->
  exists e h',
    setSendingTrack t tk h = Returned e h' /\
    match specDirectionTable (direction tr) (isNonNull tk) with
    | Some d => e = None /\ Direction t h' = Some d
    | None => e = Some invalidStateChange /\ Direction t h' = Some (direction tr)
    end.
Proof.
  intros Ht Hs Hsd.
  rewrite (setSendingTrack_unfold t tk h tr s sd Ht Hs Hsd).
  destruct (specDirectionTable (direction tr) (isNonNull tk)) as [d|].
  - eexists _, _. split; [reflexivity|]. split; [reflexivity|].
    unfold Direction; simpl. rewrite lookup_insert_eq. reflexivity.
  - eexists _, _. split; [reflexivity|]. split; [reflexivity|].
    unfold Direction. destruct tk; simpl.
    + rewrite Ht. reflexivity.
    + rewrite lookup_insert_eq. reflexivity.
Qed.

Lemma setSendingTrack_follows_table_witness :
  exists e h',
    setSendingTrack Scenario.t1 (Some Scenario.trackA) Scenario.receiving
      = Returned e h' /\
    e = None /\
    Direction Scenario.t1 h' = Some RTPTransceiverDirectionSendrecv.
Proof.
  exact (setSendingTrack_follows_table Scenario.t1 (Some Scenario.trackA)
           Scenario.receiving
           (mkTransceiver (Some Scenario.sender1) None
              RTPTransceiverDirectionRecvonly false RTPCodecTypeVideo)
           Scenario.sender1 (mkSender None (Some Scenario.t1))
           eq_refl eq_refl eq_refl).
Defined.

(** The heap with the empty sender slot is one the code produces: what
    [replaceTrack(nil)] leaves of Scenario C. *)
Example detached_is_reached :
  replaceTrack Scenario.stopOk Scenario.t1 None Scenario.sendingA
  = Returned None detached.
Proof. vm_compute. reflexivity. Qed.

Example setSendingTrack_panics_without_sender :
  setSendingTrack Scenario.t1 (Some Scenario.trackB) detached = Panicked.
Proof. vm_compute. reflexivity. Qed.

(** C4, as worded for every call, fails on a transceiver whose sender slot
    is empty: receive-only and given a track, the table says sendrecv, but
    [setSendingTrack] dereferences the nil sender and panics, returning
    neither a direction nor an error. *)
Lemma tableAsStated_fails_without_sender :
  ~ tableAsStated Scenario.t1 (Some Scenario.trackB) detached.
Proof.
  intros H.
  destruct (H (mkTransceiver None None RTPTransceiverDirectionRecvonly false
                             RTPCodecTypeVideo) eq_refl)
    as (e & h' & Hrun & _).
  vm_compute in Hrun. discriminate Hrun.
Qed.

(** ** replaceTrack *)

(** C1.  On a receive-only transceiver, [replaceTrack] with a track that
    belongs to a receiver returns without error and leaves this inbound
    track installed as the sender's track, the direction turned to
    sendrecv: the test for a remote track is made on the sending path
    only. *)
Theorem replaceTrack_binds_remote_track_when_not_sending
    (stopS : ptr -> Heap -> outcome (option error)) :
  exists h',
    replaceTrack stopS Scenario.t1 (Some Scenario.remoteTrack)
                 Scenario.receiving = Returned None h' /\
    track <$> (senders h' !! Scenario.sender1) = Some (Some Scenario.remoteTrack) /\
    trackReceiver <$> (tracks h' !! Scenario.remoteTrack)
      = Some (Some Scenario.receiver1) /\
    Direction Scenario.t1 h' = Some RTPTransceiverDirectionSendrecv.
Proof.
  eexists. split; [vm_compute; reflexivity|].
  repeat split; vm_compute; reflexivity.
Qed.

(** The sending path does refuse a remote track, and touches nothing. *)
Lemma swapTrack_refuses_remote_track s new h sd kn :
  senders h !! s = Some sd ->
  tracks h !! new = Some kn ->
  trackReceiver kn <> None ->
  swapTrack s new h = Returned (Some remoteTrackError) h.
Proof.
  intros Hsd Hkn Hrecv. unfold swapTrack. rewrite Hsd, Hkn.
  destruct (decide (trackReceiver kn ≠ None)); [reflexivity|contradiction].
Qed.

(** C2.  [replaceTrack(nil)] on a receive-only transceiver whose sender
    holds track A returns the "invalid state change" error, yet the heap it
    leaves differs from the one it found: the sender has lost its track and
    its transceiver, and the transceiver its sender. *)
Theorem replaceTrack_invalid_change_mutates
    (stopS : ptr -> Heap -> outcome (option error)) :
  exists h',
    replaceTrack stopS Scenario.t1 None Scenario.receivingWithA
      = Returned (Some invalidStateChange) h' /\
    senders Scenario.receivingWithA !! Scenario.sender1
      = Some (mkSender (Some Scenario.trackA) (Some Scenario.t1)) /\
    senders h' !! Scenario.sender1 = Some (mkSender None None) /\
    Sender Scenario.t1 Scenario.receivingWithA = Some Scenario.sender1 /\
    Sender Scenario.t1 h' = None /\
    Direction Scenario.t1 h' = Some RTPTransceiverDirectionRecvonly.
Proof.
  eexists. split; [vm_compute; reflexivity|].
  repeat split; vm_compute; reflexivity.
Qed.

(** The two checks [replaceTrack] makes first return their error on the
    heap they found. *)
Lemma replaceTrack_kind_mismatch stopS t new h tr kn :
  transceivers h !! t = Some tr ->
  tracks h !! new = Some kn ->
  trackKind kn <> kind tr ->
  replaceTrack stopS t (Some new) h
  = Returned (Some (TypeError (trackKind kn) (kind tr))) h.
Proof.
  intros Ht Hkn Hkind. unfold replaceTrack. rewrite Ht, Hkn.
  destruct (decide (trackKind kn ≠ kind tr)); [reflexivity|contradiction].
Qed.

Lemma replaceTrack_stopped stopS t h tr :
  transceivers h !! t = Some tr ->
  stopped tr = true ->
  replaceTrack stopS t None h = Returned (Some stoppedError) h.
Proof.
  intros Ht Hstopped. unfold replaceTrack. rewrite Ht, Hstopped. reflexivity.
Qed.

(** The loop that takes a sender off a list is a filter, and the count
    goes down by the number of entries it drops. *)
Lemma removeSender_filter s l filtered count :
  removeSender s l filtered count =
  (filtered ++ filter (fun x => x ≠ s) l,
   count - Z.of_nat (length (filter (fun x => x = s) l))).
Proof.
  revert filtered count. induction l as [|x l IH]; intros filtered count; simpl.
  - rewrite app_nil_r. f_equal. lia.
  - destruct (decide (x ≠ s)) as [Hne|Heq].
    + rewrite IH, filter_cons_True by exact Hne.
      rewrite (filter_cons_False (fun y => y = s)) by exact Hne.
      rewrite <- app_assoc. reflexivity.
    + assert (x = s) as ->
        by (destruct (decide (x = s)) as [E|E]; [exact E | destruct (Heq E)]).
      rewrite IH, (filter_cons_False (fun y => y ≠ s)) by exact Heq.
      rewrite (filter_cons_True (fun y => y = s)) by reflexivity.
      f_equal. simpl length. lia.
Qed.

(** What [replaceTrack] comes down to on a running, sending transceiver
    that has a sender and is given a track of its own kind. *)
Lemma replaceTrack_sending stopS t new h tr s kn :
  transceivers h !! t = Some tr ->
  sender tr = Some s ->
  tracks h !! new = Some kn ->
  stopped tr = false ->
  (direction tr = RTPTransceiverDirectionSendrecv
   \/ direction tr = RTPTransceiverDirectionSendonly) ->
  trackKind kn = kind tr ->
  replaceTrack stopS t (Some new) h = swapTrack s new h.
Proof.
  intros Ht Hs Hkn Hrun Hdir Hkind.
  unfold replaceTrack. rewrite Ht, Hkn, Hrun, Hs.
  destruct (decide (trackKind kn ≠ kind tr)) as [Hne|_]; [contradiction|].
  destruct (decide (direction tr ≠ RTPTransceiverDirectionSendrecv
                    ∧ direction tr ≠ RTPTransceiverDirectionSendonly))
    as [[H1 H2]|_]; [destruct Hdir; contradiction|].
  reflexivity.
Qed.

(** The swap proper, for an old track with the codec of the new one. *)
Lemma swapTrack_same_codec s new h sd old ko kn :
  senders h !! s = Some sd ->
  track sd = Some old ->
  tracks h !! old = Some ko ->
  tracks h !! new = Some kn ->
  trackReceiver kn = None ->
  old <> new ->
  codecMimeType ko = codecMimeType kn ->
  activeSenders ko <> [] ->
  swapTrack s new h =
  Returned None
    (storeTrack new
       (withActive (activeSenders kn ++ [s]) (totalSenderCount kn + 1) kn)
       (storeSender s (withTrack (Some new) sd)
          (storeTrack old
             (withActive (filter (fun x => x ≠ s) (activeSenders ko))
                (totalSenderCount ko
                 - Z.of_nat (length (filter (fun x => x = s) (activeSenders ko))))
                ko) h))).
Proof.
  intros Hsd Hold Hko Hkn Hrecv Hne Hmime Hlisted.
  unfold swapTrack. rewrite Hsd, Hkn, Hold, Hko.
  destruct (decide (trackReceiver kn ≠ None)) as [Hr|_]; [contradiction|].
  destruct (decide (old = new)) as [He|_]; [contradiction|].
  destruct (decide (codecMimeType ko ≠ codecMimeType kn)) as [Hm|_];
    [contradiction|].
  destruct (decide (activeSenders ko = [])) as [Hl|_]; [contradiction|].
  rewrite removeSender_filter. simpl.
  rewrite lookup_insert_ne by exact Hne. rewrite Hkn. reflexivity.
Qed.

(** C5 (amended).  On a running transceiver in direction sendrecv or
    sendonly, for a new outbound track of the transceiver's kind and a
    sender bound to an old track other than the new one: if the two MIME
    types differ, [replaceTrack] returns the renegotiation error and the
    heap is the one it found; otherwise, the old track's list of active
    senders not being empty, the call succeeds, every entry of the sender
    is filtered out of the old track's list and the old count goes down by
    the number of entries dropped, the sender is bound to the new track
    and appended to its list, whose count goes up by one, and the
    transceivers, so the direction, are untouched. *)
Theorem replaceTrack_swaps_binding stopS t new h tr s sd old ko kn :
  transceivers h !! t = Some tr ->
  sender tr = Some s ->
  senders h !! s = Some sd ->
  track sd = Some old ->
  tracks h !! old = Some ko ->
  tracks h !! new = Some kn ->
  stopped tr = false ->
  (direction tr = RTPTransceiverDirectionSendrecv
   \/ direction tr = RTPTransceiverDirectionSendonly) ->
  trackKind kn = kind tr ->
  trackReceiver kn = None ->
  old <> new ->
  if decide (codecMimeType ko = codecMimeType kn) then
    activeSenders ko <> [] ->
    exists h',
      replaceTrack stopS t (Some new) h = Returned None h' /\
      tracks h' !! old =
        Some (withActive (filter (fun x => x ≠ s) (activeSenders ko))
                (totalSenderCount ko
                 - Z.of_nat (length (filter (fun x => x = s) (activeSenders ko))))
                ko) /\
      (s ∉ filter (fun x => x ≠ s) (activeSenders ko)) /\
      senders h' = <[s := withTrack (Some new) sd]> (senders h) /\
      tracks h' !! new =
        Some (withActive (activeSenders kn ++ [s]) (totalSenderCount kn + 1) kn) /\
      (forall p, p <> old -> p <> new -> tracks h' !! p = tracks h !! p) /\
      transceivers h' = transceivers h /\
      Direction t h' = Some (direction tr)
  else
    replaceTrack stopS t (Some new) h =
    Returned (Some (InvalidModificationError (codecMimeType ko)
                                             (codecMimeType kn))) h.
Proof.
  intros Ht Hs Hsd Hold Hko Hkn Hrun Hdir Hkind Hrecv Hne.
  rewrite (replaceTrack_sending stopS t new h tr s kn Ht Hs Hkn Hrun Hdir Hkind).
  destruct (decide (codecMimeType ko = codecMimeType kn)) as [Hmime|Hmime].
  - intros Hlisted.
    rewrite (swapTrack_same_codec s new h sd old ko kn
               Hsd Hold Hko Hkn Hrecv Hne Hmime Hlisted).
    eexists. split; [reflexivity|]. simpl.
    split; [rewrite lookup_insert_ne by congruence; apply lookup_insert_eq|].
    split; [rewrite list_elem_of_filter; tauto|].
    split; [reflexivity|].
    split; [apply lookup_insert_eq|].
    split; [intros p Hpo Hpn; rewrite !lookup_insert_ne by congruence;
            reflexivity|].
    split; [reflexivity|].
    unfold Direction; simpl. rewrite Ht. reflexivity.
  - unfold swapTrack. rewrite Hsd, Hkn, Hold, Hko.
    destruct (decide (trackReceiver kn ≠ None)) as [Hr|_]; [contradiction|].
    destruct (decide (old = new)) as [He|_]; [contradiction|].
    destruct (decide (codecMimeType ko ≠ codecMimeType kn)) as [_|Hm];
      [reflexivity|contradiction].
Qed.

Lemma replaceTrack_swaps_binding_witness :
  exists h',
    replaceTrack Scenario.stopOk Scenario.t1 (Some Scenario.trackB)
                 Scenario.sendingA = Returned None h' /\
    tracks h' !! Scenario.trackA
      = Some (mkTrack RTPCodecTypeVideo 1111 "video/VP8" None [] 0) /\
    senders h' !! Scenario.sender1
      = Some (mkSender (Some Scenario.trackB) (Some Scenario.t1)) /\
    tracks h' !! Scenario.trackB
      = Some (mkTrack RTPCodecTypeVideo 2222 "video/VP8" None
                      [Scenario.sender1] 1) /\
    Direction Scenario.t1 h' = Some RTPTransceiverDirectionSendrecv.
Proof.
  pose proof
    (replaceTrack_swaps_binding Scenario.stopOk Scenario.t1 Scenario.trackB
       Scenario.sendingA
       (mkTransceiver (Some Scenario.sender1) None
          RTPTransceiverDirectionSendrecv false RTPCodecTypeVideo)
       Scenario.sender1 (mkSender (Some Scenario.trackA) (Some Scenario.t1))
       Scenario.trackA
       (mkTrack RTPCodecTypeVideo 1111 "video/VP8" None [Scenario.sender1] 1)
       (mkTrack RTPCodecTypeVideo 2222 "video/VP8" None [] 0)
       eq_refl eq_refl eq_refl eq_refl eq_refl eq_refl eq_refl
       (or_introl eq_refl) eq_refl eq_refl ltac:(discriminate)) as H.
  simpl in H.
  destruct (H ltac:(discriminate))
    as (h' & Hrun & Hold & _ & Hsenders & Hnew & _ & _ & Hdir).
  exists h'. split; [exact Hrun|].
  split; [exact Hold|].
  split; [rewrite Hsenders; reflexivity|].
  split; [exact Hnew|exact Hdir].
Defined.

(** C5, as worded, fails where the sender holds a track that does not list
    it: the call succeeds and takes nothing off the old track's count. *)
Lemma swapAsStated_fails_for_unlisted_sender :
  ~ swapAsStated Scenario.stopOk Scenario.t1 Scenario.trackB
      Scenario.sendingUnlisted.
Proof.
  intros H.
  specialize
    (H (mkTransceiver (Some Scenario.sender1) None
          RTPTransceiverDirectionSendrecv false RTPCodecTypeVideo)
       Scenario.sender1 (mkSender (Some Scenario.trackA) (Some Scenario.t1))
       Scenario.trackA
       (mkTrack RTPCodecTypeVideo 1111 "video/VP8" None [Scenario.sender2] 1)
       (mkTrack RTPCodecTypeVideo 2222 "video/VP8" None [] 0)
       eq_refl eq_refl eq_refl eq_refl eq_refl eq_refl eq_refl
       (or_introl eq_refl) eq_refl eq_refl).
  simpl in H.
  destruct H as (h' & ko' & kn' & Hrun & Hold & _ & Hcount & _).
  vm_compute in Hrun. injection Hrun as <-.
  vm_compute in Hold. injection Hold as <-.
  simpl in Hcount. discriminate Hcount.
Qed.

(** Scenario D: track C carries another codec, the swap is refused and
    nothing moves. *)
Example replaceTrack_other_codec_refused :
  replaceTrack Scenario.stopOk Scenario.t1 (Some Scenario.trackC)
               Scenario.sendingA
  = Returned (Some (InvalidModificationError "video/VP8" "video/H264"))
             Scenario.sendingA.
Proof. vm_compute. reflexivity. Qed.

(** Two calls that do not return: putting back the track the sender
    already holds locks that track's mutex twice, and an old track with an
    empty list of active senders asks [make] for a capacity of -1. *)
Example replaceTrack_same_track_deadlocks :
  replaceTrack Scenario.stopOk Scenario.t1 (Some Scenario.trackA)
               Scenario.sendingA = Deadlocked.
Proof. vm_compute. reflexivity. Qed.

Example replaceTrack_empty_list_panics :
  replaceTrack Scenario.stopOk Scenario.t1 (Some Scenario.trackB)
               Scenario.sendingEmpty = Panicked.
Proof. vm_compute. reflexivity. Qed.

(** ** The count of active senders *)

Lemma setSender_tracks t s h u h' :
  setSender t s h = Returned u h' -> tracks h' = tracks h.
Proof.
  unfold setSender. intros H.
  destruct (transceivers h !! t) as [tr|]; [|discriminate H].
  match type of H with
  | match ?m with _ => _ end = _ => destruct m as [h1|] eqn:E
  end; [|discriminate H].
  assert (tracks h1 = tracks h) as <-.
  { destruct s as [sp|]; [destruct (senders h !! sp)|];
      try discriminate E; injection E as <-; reflexivity. }
  returned H; reflexivity.
Qed.

Lemma setReceiver_tracks t r h u h' :
  setReceiver t r h = Returned u h' -> tracks h' = tracks h.
Proof. unfold setReceiver. intros H. returned H; reflexivity. Qed.

Lemma setDirection_tracks t d h u h' :
  setDirection t d h = Returned u h' -> tracks h' = tracks h.
Proof. unfold setDirection. intros H. returned H; reflexivity. Qed.

Lemma bind_returned {A B} (m : outcome A) (k : A -> Heap -> outcome B) b h' :
  bind m k = Returned b h' ->
  exists a h1, m = Returned a h1 /\ k a h1 = Returned b h'.
Proof. destruct m; simpl; intros H; try discriminate H; eauto. Qed.

Lemma setSendingTrack_tracks t tk h e h' :
  setSendingTrack t tk h = Returned e h' -> tracks h' = tracks h.
Proof.
  unfold setSendingTrack. intros H.
  destruct (Sender t h) as [s|]; [|discriminate H].
  destruct (senders h !! s) as [sd|]; [|discriminate H].
  apply bind_returned in H as (u & h2 & Hbind & H).
  assert (tracks h2 = tracks h) as <-.
  { destruct tk; [injection Hbind as <- <-; reflexivity|].
    apply setSender_tracks in Hbind. exact Hbind. }
  destruct (transceivers h2 !! t) as [tr|]; [|discriminate H].
  destruct tk, (direction tr);
    try (injection H as <- <-; reflexivity);
    apply bind_returned in H as (u' & h3 & Hd & H);
    apply setDirection_tracks in Hd; injection H as <- <-; exact Hd.
Qed.

Lemma tracksConsistent_same_tracks h h' :
  tracks h' = tracks h -> tracksConsistent h -> tracksConsistent h'.
Proof. unfold tracksConsistent. intros ->. auto. Qed.

Lemma tracksConsistent_storeTrack p k h :
  totalSenderCount k = Z.of_nat (length (activeSenders k)) ->
  tracksConsistent h -> tracksConsistent (storeTrack p k h).
Proof.
  intros Hk Hh q k' Hq. simpl in Hq.
  destruct (decide (p = q)) as [->|Hne].
  - rewrite lookup_insert_eq in Hq. injection Hq as <-. exact Hk.
  - rewrite lookup_insert_ne in Hq by exact Hne. eapply Hh, Hq.
Qed.

(** The loop keeps count and list length in step. *)
Lemma removeSender_keeps_count s l filtered count :
  count = Z.of_nat (length filtered) + Z.of_nat (length l) ->
  snd (removeSender s l filtered count)
  = Z.of_nat (length (fst (removeSender s l filtered count))).
Proof.
  revert filtered count. induction l as [|x l IH]; intros filtered count Hc.
  - simpl in *. lia.
  - simpl. destruct (decide (x ≠ s)).
    + apply IH. rewrite length_app. simpl length in *. lia.
    + apply IH. simpl length in *. lia.
Qed.

Lemma swapTrack_consistent s new h e h' :
  tracksConsistent h -> swapTrack s new h = Returned e h' ->
  tracksConsistent h'.
Proof.
  intros Hh H. unfold swapTrack in H.
  destruct (senders h !! s) as [sd|]; [|discriminate H].
  destruct (tracks h !! new) as [kn|]; [|discriminate H].
  destruct (decide (trackReceiver kn ≠ None));
    [injection H as <- <-; exact Hh|].
  match type of H with
  | match ?m with _ => _ end = _ => destruct m as [[err|] h1| |] eqn:E
  end; try discriminate H.
  - (* the old track refused the swap *)
    injection H as <- <-.
    destruct (track sd) as [old|]; [|discriminate E].
    returned E. exact Hh.
  - assert (tracksConsistent h1) as Hh1.
    { destruct (track sd) as [old|]; [|injection E as <-; exact Hh].
      destruct (decide (old = new)); [discriminate E|].
      destruct (tracks h !! old) as [ko|] eqn:Hko; [|discriminate E].
      destruct (decide (codecMimeType ko ≠ codecMimeType kn));
        [discriminate E|].
      destruct (decide (activeSenders ko = [])); [discriminate E|].
      pose proof (removeSender_keeps_count s (activeSenders ko) []
                    (totalSenderCount ko)) as Hcount.
      destruct (removeSender s (activeSenders ko) [] (totalSenderCount ko))
        as [filtered count].
      injection E as <-.
      apply tracksConsistent_storeTrack; [|exact Hh].
      simpl in *. apply Hcount. rewrite (Hh old ko Hko). reflexivity. }
    destruct (tracks h1 !! new) as [kn1|] eqn:Hkn1; [|discriminate H].
    injection H as <- <-.
    apply tracksConsistent_storeTrack.
    + simpl. rewrite length_app, (Hh1 new kn1 Hkn1). simpl length. lia.
    + eapply tracksConsistent_same_tracks; [|exact Hh1]. reflexivity.
Qed.

Section Preservation.

Variable senderStop receiverStop : ptr -> Heap -> outcome (option error).
Hypothesis senderStop_keeps : keepsTracksConsistent senderStop.
Hypothesis receiverStop_keeps : keepsTracksConsistent receiverStop.

Lemma replaceTrack_consistent t tk h e h' :
  tracksConsistent h -> replaceTrack senderStop t tk h = Returned e h' ->
  tracksConsistent h'.
Proof.
  intros Hh H. unfold replaceTrack in H.
  destruct (transceivers h !! t) as [tr|]; [|discriminate H].
  assert (forall o : outcome (option error),
             o = Returned e h' ->
             o = (if stopped tr then Returned (Some stoppedError) h
                  else if decide (direction tr ≠ RTPTransceiverDirectionSendrecv
                                  ∧ direction tr ≠ RTPTransceiverDirectionSendonly)
                  then setSendingTrack t tk h
                  else match tk with
                       | None =>
                         match sender tr with
                         | None => Panicked
                         | Some s =>
                           bind (senderStop s h)
                             (fun e h1 =>
                                match e with
                                | Some err => Returned (Some err) h1
                                | None => setSendingTrack t None h1
                                end)
                         end
                       | Some new =>
                         match sender tr with
                         | None => Panicked
                         | Some s => swapTrack s new h
                         end
                       end) ->
             tracksConsistent h') as Hrest.
  { intros o Ho ->.
    destruct (stopped tr); [injection Ho as <- <-; exact Hh|].
    destruct (decide _).
    - apply setSendingTrack_tracks in Ho.
      eapply tracksConsistent_same_tracks; eauto.
    - destruct tk as [new|], (sender tr) as [s|]; try discriminate Ho.
      + eapply swapTrack_consistent; eauto.
      + apply bind_returned in Ho as (e1 & h1 & Hstop & Ho).
        apply senderStop_keeps in Hstop; [|exact Hh].
        destruct e1; [injection Ho as <- <-; exact Hstop|].
        apply setSendingTrack_tracks in Ho.
        eapply tracksConsistent_same_tracks; eauto. }
  destruct tk as [p|]; [|eapply Hrest; [exact H|reflexivity]].
  destruct (tracks h !! p) as [k|]; [|discriminate H].
  destruct (decide (trackKind k ≠ kind tr));
    [injection H as <- <-; exact Hh|].
  eapply Hrest; [exact H|reflexivity].
Qed.

Lemma Stop_consistent t h e h' :
  tracksConsistent h -> Stop senderStop receiverStop t h = Returned e h' ->
  tracksConsistent h'.
Proof.
  intros Hh H. unfold Stop in H.
  apply bind_returned in H as (e1 & h1 & Hs & H).
  assert (tracksConsistent h1) as Hh1.
  { destruct (Sender t h); [eapply senderStop_keeps; eauto|].
    injection Hs as <- <-. exact Hh. }
  destruct e1; [injection H as <- <-; exact Hh1|].
  apply bind_returned in H as (e2 & h2 & Hr & H).
  assert (tracksConsistent h2) as Hh2.
  { destruct (Receiver t h1); [eapply receiverStop_keeps; eauto|].
    injection Hr as <- <-. exact Hh1. }
  destruct e2; [injection H as <- <-; exact Hh2|].
  apply bind_returned in H as (u & h3 & Hd & H).
  injection H as <- <-. apply setDirection_tracks in Hd.
  eapply tracksConsistent_same_tracks; eauto.
Qed.

End Preservation.

Lemma pluckFirst_tracks h k ds pool r h' :
  pluckFirst h k ds pool = Returned r h' -> tracks h' = tracks h.
Proof.
  induction ds as [|d ds IH]; simpl; intros H.
  - injection H as <- <-. reflexivity.
  - destruct (scanFrom h k d pool 0); try discriminate H; auto.
    injection H as <- <-. reflexivity.
Qed.

(** C7.  From a heap in which every track's count equals the length of
    its list of active senders, whatever calls into the negotiation layer
    return (among them [replaceTrack] and [Stop], the two [Stop] methods of
    sender and receiver being any that keep the equality), the heap
    reached has the equality for every track, and no count is negative. *)
Theorem sender_count_is_list_length senderStop receiverStop h h' :
  keepsTracksConsistent senderStop ->
  keepsTracksConsistent receiverStop ->
  tracksConsistent h ->
  rtc (call senderStop receiverStop) h h' ->
  forall p k,
    tracks h' !! p = Some k ->
    totalSenderCount k = Z.of_nat (length (activeSenders k))
    /\ 0 <= totalSenderCount k.
Proof.
  intros Hs Hr Hh Hcalls.
  assert (tracksConsistent h') as Hh'.
  { induction Hcalls as [h|h h1 h2 Hcall _ IH]; [exact Hh|].
    apply IH. destruct Hcall as
        [t tk h e h1 H|t h e h1 H|t tk h e h1 H|t s h u h1 H
        |t r h u h1 H|t d h u h1 H|k d pool h r h1 H].
    - eapply (replaceTrack_consistent senderStop Hs); eauto.
    - eapply (Stop_consistent senderStop receiverStop Hs Hr); eauto.
    - eapply tracksConsistent_same_tracks; [|exact Hh].
      eapply setSendingTrack_tracks; eauto.
    - eapply tracksConsistent_same_tracks; [|exact Hh].
      eapply setSender_tracks; eauto.
    - eapply tracksConsistent_same_tracks; [|exact Hh].
      eapply setReceiver_tracks; eauto.
    - eapply tracksConsistent_same_tracks; [|exact Hh].
      eapply setDirection_tracks; eauto.
    - eapply tracksConsistent_same_tracks; [|exact Hh].
      eapply pluckFirst_tracks; eauto. }
  intros p k Hk. rewrite (Hh' p k Hk). split; [reflexivity|lia].
Qed.

Lemma tracksConsistent_insert T S m p k :
  totalSenderCount k = Z.of_nat (length (activeSenders k)) ->
  tracksConsistent (mkHeap T S m) ->
  tracksConsistent (mkHeap T S (<[p := k]> m)).
Proof. intros Hk Hm. exact (tracksConsistent_storeTrack p k _ Hk Hm). Qed.

Lemma tracksConsistent_empty T S : tracksConsistent (mkHeap T S ∅).
Proof. intros p k Hk. simpl in Hk. rewrite lookup_empty in Hk. discriminate Hk. Qed.

Lemma stopOk_keeps : keepsTracksConsistent Scenario.stopOk.
Proof. intros p h e h' Hh H. injection H as <- <-. exact Hh. Qed.

Lemma sender_count_is_list_length_witness :
  totalSenderCount Scenario.trackBListed
  = Z.of_nat (length (activeSenders Scenario.trackBListed))
  /\ 0 <= totalSenderCount Scenario.trackBListed.
Proof.
  apply (sender_count_is_list_length Scenario.stopOk Scenario.stopOk
           Scenario.sendingA Scenario.afterSwap stopOk_keeps stopOk_keeps)
    with (p := Scenario.trackB).
  - unfold Scenario.sendingA, Scenario.heapWith, Scenario.theTracks.
    repeat (apply tracksConsistent_insert; [reflexivity|]).
    apply tracksConsistent_empty.
  - apply rtc_once.
    apply (call_replaceTrack _ _ Scenario.t1 (Some Scenario.trackB) _ None).
    vm_compute. reflexivity.
  - vm_compute. reflexivity.
Defined.

(** ** The matcher *)

Lemma scanFrom_hit h k d l i j t :
  poolAllocated h l ->
  firstMatch h k d l j t ->
  scanFrom h k d l i = ScanFound (i + j) t.
Proof.
  revert i j. induction l as [|x l IH]; intros i j Hall (Hj & Hm & Hfirst).
  - rewrite lookup_nil in Hj. discriminate Hj.
  - apply Forall_cons in Hall as [[tr Hx] Hall]. simpl. rewrite Hx.
    destruct j as [|j].
    + simpl in Hj. injection Hj as ->.
      destruct Hm as (tr' & Ht & Hk & Hd). rewrite Hx in Ht. injection Ht as <-.
      destruct (decide (kind tr ≠ k ∨ d ≠ direction tr)) as [[Hne|Hne]|_].
      * contradiction.
      * symmetry in Hd. contradiction.
      * f_equal. lia.
    + destruct (decide (kind tr ≠ k ∨ d ≠ direction tr)) as [_|Hno].
      * rewrite (IH (S i) j Hall).
        -- f_equal. lia.
        -- split; [exact Hj|]. split; [exact Hm|].
           intros j' t' Hlt Hj'. apply (Hfirst (S j') t'); [lia|exact Hj'].
      * exfalso. apply (Hfirst 0%nat x); [lia|reflexivity|].
        exists tr. split; [exact Hx|].
        destruct (decide (kind tr = k)) as [Hk|Hk];
          [|exfalso; apply Hno; left; exact Hk].
        destruct (decide (d = direction tr)) as [Hd|Hd];
          [|exfalso; apply Hno; right; exact Hd].
        split; [exact Hk|symmetry; exact Hd].
Qed.

Lemma scanFrom_miss h k d l i :
  poolAllocated h l ->
  noMatch h k d l ->
  scanFrom h k d l i = ScanNone.
Proof.
  revert i. induction l as [|x l IH]; intros i Hall Hno; [reflexivity|].
  apply Forall_cons in Hall as [[tr Hx] Hall]. simpl. rewrite Hx.
  destruct (decide (kind tr ≠ k ∨ d ≠ direction tr)) as [_|Hhit].
  - apply IH; [exact Hall|].
    intros t Ht. apply Hno. apply list_elem_of_further. exact Ht.
  - exfalso. apply (Hno x); [apply list_elem_of_here|].
    exists tr. split; [exact Hx|].
    destruct (decide (kind tr = k)) as [Hk|Hk];
      [|exfalso; apply Hhit; left; exact Hk].
    destruct (decide (d = direction tr)) as [Hd|Hd];
      [|exfalso; apply Hhit; right; exact Hd].
    split; [exact Hk|symmetry; exact Hd].
Qed.

Lemma scanFrom_allocated h k d l i :
  poolAllocated h l -> scanFrom h k d l i <> ScanPanicked.
Proof.
  revert i. induction l as [|x l IH]; intros i Hall; [discriminate|].
  apply Forall_cons in Hall as [[tr Hx] Hall]. simpl. rewrite Hx.
  destruct (decide _); [apply IH; exact Hall|discriminate].
Qed.

Lemma pluckFirst_hit h k before d after pool i t :
  poolAllocated h pool ->
  Forall (fun d' => noMatch h k d' pool) before ->
  firstMatch h k d pool i t ->
  pluckFirst h k (before ++ d :: after) pool =
  Returned (t, take i pool ++ drop (S i) pool) h.
Proof.
  intros Hall Hbefore Hfirst.
  induction before as [|d' before IH]; simpl.
  - rewrite (scanFrom_hit h k d pool 0 i t Hall Hfirst). reflexivity.
  - apply Forall_cons in Hbefore as [Hd' Hbefore].
    rewrite (scanFrom_miss h k d' pool 0 Hall Hd'). apply IH. exact Hbefore.
Qed.

Lemma pluckFirst_miss h k ds pool :
  poolAllocated h pool ->
  Forall (fun d => noMatch h k d pool) ds ->
  pluckFirst h k ds pool =
  Returned (newTransceiverAddr h, pool)
           (storeTransceiver (newTransceiverAddr h) (inactiveTransceiver k) h).
Proof.
  intros Hall Hno. induction ds as [|d ds IH]; [reflexivity|].
  apply Forall_cons in Hno as [Hd Hno]. simpl.
  rewrite (scanFrom_miss h k d pool 0 Hall Hd). apply IH. exact Hno.
Qed.

Lemma pluckFirst_returns h k ds pool :
  poolAllocated h pool ->
  exists r h', pluckFirst h k ds pool = Returned r h'.
Proof.
  intros Hall. induction ds as [|d ds IH]; simpl; [eauto|].
  pose proof (scanFrom_allocated h k d pool 0 Hall) as Hscan.
  destruct (scanFrom h k d pool 0); [eauto|exact IH|contradiction].
Qed.

Lemma newTransceiverAddr_fresh h : transceivers h !! newTransceiverAddr h = None.
Proof. apply not_elem_of_dom. unfold newTransceiverAddr. apply is_fresh. Qed.

(** C6.  For a pool whose entries all point to transceivers:
    the preferred local directions are recvonly then sendrecv for a remote
    sendrecv or sendonly, and sendonly then sendrecv for a remote recvonly;
    if [d] is the first preferred direction for which some entry of the
    pool has the remote kind and direction [d], and [t] at index [i] is the
    first such entry, the matcher returns [t] and the pool without index
    [i], the heap as it was; if no preferred direction has such an entry,
    it returns a transceiver at an address that was not allocated, of the
    remote kind and inactive, and the pool as it was; so it does on the
    empty pool; and in every case it returns. *)
Theorem satisfyTypeAndDirection_plucks_first_match
    remoteKind remoteDirection pool h :
  poolAllocated h pool ->
  (getPreferredDirections RTPTransceiverDirectionSendrecv
     = [RTPTransceiverDirectionRecvonly; RTPTransceiverDirectionSendrecv] /\
   getPreferredDirections RTPTransceiverDirectionSendonly
     = [RTPTransceiverDirectionRecvonly; RTPTransceiverDirectionSendrecv] /\
   getPreferredDirections RTPTransceiverDirectionRecvonly
     = [RTPTransceiverDirectionSendonly; RTPTransceiverDirectionSendrecv]) /\
  (forall before d after i t,
      getPreferredDirections remoteDirection = before ++ d :: after ->
      Forall (fun d' => noMatch h remoteKind d' pool) before ->
      firstMatch h remoteKind d pool i t ->
      satisfyTypeAndDirection remoteKind remoteDirection pool h
      = Returned (t, take i pool ++ drop (S i) pool) h) /\
  (Forall (fun d => noMatch h remoteKind d pool)
          (getPreferredDirections remoteDirection) ->
   satisfyTypeAndDirection remoteKind remoteDirection pool h
   = Returned (newTransceiverAddr h, pool)
       (storeTransceiver (newTransceiverAddr h)
          (mkTransceiver None None RTPTransceiverDirectionInactive false
                         remoteKind) h)) /\
  transceivers h !! newTransceiverAddr h = None /\
  satisfyTypeAndDirection remoteKind remoteDirection [] h
  = Returned (newTransceiverAddr h, [])
      (storeTransceiver (newTransceiverAddr h)
         (mkTransceiver None None RTPTransceiverDirectionInactive false
                        remoteKind) h) /\
  exists r h',
    satisfyTypeAndDirection remoteKind remoteDirection pool h = Returned r h'.
Proof.
  intros Hall. unfold satisfyTypeAndDirection.
  split; [repeat split; reflexivity|].
  split.
  { intros before d after i t -> Hbefore Hfirst.
    apply pluckFirst_hit; assumption. }
  split; [intros Hno; apply pluckFirst_miss; assumption|].
  split; [apply newTransceiverAddr_fresh|].
  split.
  { apply (pluckFirst_miss h remoteKind _ []); [constructor|].
    apply Forall_forall. intros d _ t Ht. inversion Ht. }
  apply pluckFirst_returns. exact Hall.
Qed.

(** Scenario A: the pool [T(video, recvonly)] against a remote (video,
    sendrecv) gives T and the empty pool. *)
Lemma satisfyTypeAndDirection_plucks_first_match_witness :
  satisfyTypeAndDirection RTPCodecTypeVideo RTPTransceiverDirectionSendrecv
    [Scenario.t1] Scenario.receiving
  = Returned (Scenario.t1, []) Scenario.receiving.
Proof.
  assert (poolAllocated Scenario.receiving [Scenario.t1]) as Hall.
  { constructor; [|constructor]. eexists. reflexivity. }
  destruct (satisfyTypeAndDirection_plucks_first_match RTPCodecTypeVideo
              RTPTransceiverDirectionSendrecv [Scenario.t1]
              Scenario.receiving Hall) as (_ & Hhit & _).
  apply (Hhit [] RTPTransceiverDirectionRecvonly
              [RTPTransceiverDirectionSendrecv] 0%nat Scenario.t1).
  - reflexivity.
  - constructor.
  - split; [reflexivity|]. split.
    + eexists. split; [reflexivity|]. split; reflexivity.
    + intros j t' Hlt. lia.
Defined.

(** Scenario B: the empty pool against a remote (audio, recvonly) gives a
    new inactive audio transceiver and the empty pool. *)
Example satisfyTypeAndDirection_empty_pool :
  exists p h',
    satisfyTypeAndDirection RTPCodecTypeAudio RTPTransceiverDirectionRecvonly
      [] Scenario.receiving = Returned (p, []) h' /\
    transceivers Scenario.receiving !! p = None /\
    transceivers h' !! p
    = Some (mkTransceiver None None RTPTransceiverDirectionInactive false
                          RTPCodecTypeAudio).
Proof.
  eexists _, _. split; [reflexivity|].
  split; [apply newTransceiverAddr_fresh|].
  simpl. apply lookup_insert_eq.
Qed.

(** ** The echo relay *)





(** ** The simulcast relay *)

Lemma wrap32_add_l a b : wrap32 (wrap32 a + b) = wrap32 (a + b).
Proof. unfold wrap32. apply Zplus_mod_idemp_l. Qed.

Lemma wrap16_add_l a b : wrap16 (wrap16 a + b) = wrap16 (a + b).
Proof. unfold wrap16. apply Zplus_mod_idemp_l. Qed.

Lemma consume_nth outputTrack st events i w :
  fst (consume outputTrack st events) !! i = Some w ->
  exists ev v,
    events !! i = Some ev /\
    trackSSRC outputTrack (qnow ev) = Some v /\
    w = mkWritten outputTrack
          (mkPacket false 0 []
             (match i with
              | O => seq st
              | S _ => wrap16 (seq st + Z.of_nat i)
              end)
             (wrap32 (currTimestamp st
                      + sumTimestamps (dequeued <$> take (S i) events)))
             v (Payload (dequeued ev)))
          (qanswer ev).
Proof.
  revert st i. induction events as [|ev rest IH]; intros st i Hw; simpl in Hw.
  - rewrite lookup_nil in Hw. discriminate Hw.
  - destruct (trackSSRC outputTrack (qnow ev)) as [v|] eqn:Hv;
      [|simpl in Hw; rewrite lookup_nil in Hw; discriminate Hw].
    specialize (IH (mkConsumerState
                      (wrap32 (currTimestamp st + Timestamp (dequeued ev)))
                      (wrap16 (seq st + 1)))).
    destruct (consume outputTrack _ rest) as [ws status]. simpl in IH.
    destruct i as [|i].
    + exists ev, v. split; [reflexivity|]. split; [exact Hv|].
      assert (forall z, z + 0 = z) as Hz by (intros; lia).
      destruct (qanswer ev); simpl in Hw; injection Hw as <-;
        unfold rewritePacket; simpl; rewrite ?take_0; simpl; rewrite ?Hz;
        reflexivity.
    + assert (ws !! i = Some w) as Hrest.
      { destruct (qanswer ev); simpl in Hw; try exact Hw.
        rewrite lookup_nil in Hw. discriminate Hw. }
      destruct (IH i Hrest) as (ev' & v' & Hev' & Hv' & ->).
      exists ev', v'. split; [exact Hev'|]. split; [exact Hv'|].
      f_equal. f_equal.
      * destruct i as [|i]; [f_equal; lia|].
        rewrite wrap16_add_l. f_equal. lia.
      * change (dequeued <$> take (S (S i)) (ev :: rest))
          with (dequeued ev :: (dequeued <$> take (S i) rest)).
        simpl sumTimestamps. rewrite wrap32_add_l. f_equal.
        unfold sumTimestamps. lia.
Qed.

(** C8 (amended).  The [i]-th packet the consumer writes, counting from 0,
    has for timestamp the sum of the deltas dequeued so far reduced modulo
    2^32, for sequence number [i] reduced modulo 2^16, for SSRC the SSRC of
    the outbound track at that moment, no extension flag, profile or
    extension left, and the payload of the [i]-th packet dequeued. *)
Theorem consumer_rewrites_modulo_field_width outputTrack events i w :
  fst (consume outputTrack consumerStart events) !! i = Some w ->
  exists ev,
    events !! i = Some ev /\
    Timestamp (packet w)
      = wrap32 (sumTimestamps (dequeued <$> take (S i) events)) /\
    SequenceNumber (packet w) = wrap16 (Z.of_nat i) /\
    trackSSRC outputTrack (qnow ev) = Some (SSRC (packet w)) /\
    Extension (packet w) = false /\
    ExtensionProfile (packet w) = 0 /\
    Extensions (packet w) = [] /\
    Payload (packet w) = Payload (dequeued ev) /\
    target w = outputTrack.
Proof.
  intros Hw.
  destruct (consume_nth outputTrack consumerStart events i w Hw)
    as (ev & v & Hev & Hv & ->).
  exists ev. simpl. repeat split; try assumption.
  destruct i; reflexivity.
Qed.

Lemma consumer_rewrites_modulo_field_width_witness :
  exists ev,
    Relay.wrappingQueue !! 1%nat = Some ev /\
    Timestamp (withSSRC 1111 (mkPacket false 0 [] 1 0 0 []))
      = wrap32 (sumTimestamps (dequeued <$> take 2 Relay.wrappingQueue)) /\
    SequenceNumber (withSSRC 1111 (mkPacket false 0 [] 1 0 0 []))
      = wrap16 (Z.of_nat 1) /\
    trackSSRC Scenario.trackA (qnow ev)
      = Some (SSRC (withSSRC 1111 (mkPacket false 0 [] 1 0 0 []))) /\
    Extension (withSSRC 1111 (mkPacket false 0 [] 1 0 0 [])) = false /\
    ExtensionProfile (withSSRC 1111 (mkPacket false 0 [] 1 0 0 [])) = 0 /\
    Extensions (withSSRC 1111 (mkPacket false 0 [] 1 0 0 [])) = [] /\
    Payload (withSSRC 1111 (mkPacket false 0 [] 1 0 0 []))
      = Payload (dequeued ev) /\
    Scenario.trackA = Scenario.trackA.
Proof.
  apply (consumer_rewrites_modulo_field_width Scenario.trackA
           Relay.wrappingQueue 1%nat
           (mkWritten Scenario.trackA
              (withSSRC 1111 (mkPacket false 0 [] 1 0 0 [])) WriteOk)).
  vm_compute. reflexivity.
Defined.

(** C8, as worded, fails once the deltas add up to 2^32: the second
    packet goes out with timestamp 0, below the first and not the sum. *)
Lemma consumerAsStated_fails_on_wrap :
  ~ consumerAsStated Scenario.trackA Relay.wrappingQueue.
Proof.
  intros H.
  destruct (H 1%nat
              (mkWritten Scenario.trackA
                 (withSSRC 1111 (mkPacket false 0 [] 1 0 0 [])) WriteOk)
              (mkQueueEvent (Relay.plain 1) Scenario.sendingA WriteOk))
    as (Hts & _); [vm_compute; reflexivity|reflexivity|].
  vm_compute in Hts. discriminate Hts.
Qed.

(** The handler takes the first byte of a non-empty identifier and leaves
    the channel alone. *)
Lemma onMessage_takes_first_byte c rest sh :
  onMessage (Unmarshalled (String c rest)) sh = Some (mkShared c (packets sh)).
Proof. reflexivity. Qed.

(** C9.  On the message whose identifier is the empty string the handler
    panics: [v.RID[0]] indexes an empty string. *)
Theorem onMessage_empty_rid_panics sh :
  onMessage (Unmarshalled "") sh = None.
Proof. reflexivity. Qed.

(** Every turn stores the original timestamp of the packet it read,
    whatever becomes of the packet. *)
Lemma pumpTurn_stores_original ridExtValue selected st rtp :
  lastTimestamp (fst (pumpTurn ridExtValue selected st rtp)) = Timestamp rtp.
Proof.
  unfold pumpTurn.
  destruct (GetExtension _ _) as [|b ?]; [reflexivity|].
  destruct (decide (b ≠ selected)); reflexivity.
Qed.

(** A packet that is sent on carries the delta to the stored timestamp, or
    0 when the stored timestamp is 0. *)
Lemma pumpTurn_sends_delta ridExtValue selected st rtp p pli :
  snd (pumpTurn ridExtValue selected st rtp) = Send p pli ->
  p = withTimestamp
        (if decide (lastTimestamp st = 0) then 0
         else wrap32 (Timestamp rtp - lastTimestamp st)) rtp.
Proof.
  unfold pumpTurn.
  destruct (GetExtension _ _) as [|b ?]; [discriminate|].
  destruct (decide (b ≠ selected)); [discriminate|].
  simpl. intros H. injection H as <- _.
  destruct (decide (lastTimestamp st = 0)); reflexivity.
Qed.

Lemma pumpRun_nth ridExtValue st reads i a :
  fst (fst (pumpRun ridExtValue st reads)) !! i = Some a ->
  exists rtp selected before,
    reads !! i = Some (ReadOk rtp, selected) /\
    lastTimestamp before
    = match i with
      | O => lastTimestamp st
      | S _ => previousOriginal reads i
      end /\
    a = snd (pumpTurn ridExtValue selected before rtp).
Proof.
  revert st i. induction reads as [|[r selected] rest IH]; intros st i Ha;
    simpl in Ha.
  - rewrite lookup_nil in Ha. discriminate Ha.
  - destruct r as [rtp|];
      [|simpl in Ha; rewrite lookup_nil in Ha; discriminate Ha].
    pose proof (pumpTurn_stores_original ridExtValue selected st rtp) as Hlast.
    destruct (pumpTurn ridExtValue selected st rtp) as [st' a0] eqn:Hturn.
    simpl in Hlast. specialize (IH st').
    destruct (pumpRun ridExtValue st' rest) as [[acts final] status].
    simpl in IH.
    destruct i as [|i].
    + exists rtp, selected, st. split; [reflexivity|]. split; [reflexivity|].
      rewrite Hturn. simpl.
      destruct a0; simpl in Ha; injection Ha as <-; reflexivity.
    + assert (acts !! i = Some a) as Hrest.
      { destruct a0; simpl in Ha; try exact Ha.
        rewrite lookup_nil in Ha. discriminate Ha. }
      destruct (IH i Hrest) as (rtp' & sel' & before & Hread & Hbefore & ->).
      exists rtp', sel', before. split; [exact Hread|]. split; [|reflexivity].
      rewrite Hbefore. destruct i as [|i]; [simpl; exact Hlast|].
      reflexivity.
Qed.

(** C10.  The [i]-th action of the simulcast packet loop is the turn made
    on the [i]-th packet received, with for stored timestamp the original
    timestamp of the packet received just before it on this track, sent on
    or dropped (0 before the first packet); the turn stores the packet's
    own original timestamp, whatever it does with the packet; and a packet
    it sends on has its timestamp rewritten to 0 when the stored timestamp
    is 0, and to the original minus the stored one modulo 2^32
    otherwise. *)
Theorem pump_delta_from_previous_received ridExtValue reads i a :
  fst (fst (pumpRun ridExtValue pumpStart reads)) !! i = Some a ->
  exists rtp selected before,
    reads !! i = Some (ReadOk rtp, selected) /\
    lastTimestamp before = previousOriginal reads i /\
    a = snd (pumpTurn ridExtValue selected before rtp) /\
    lastTimestamp (fst (pumpTurn ridExtValue selected before rtp))
      = Timestamp rtp /\
    forall p pli,
      a = Send p pli ->
      p = withTimestamp
            (if decide (previousOriginal reads i = 0) then 0
             else wrap32 (Timestamp rtp - previousOriginal reads i)) rtp.
Proof.
  intros Ha.
  destruct (pumpRun_nth ridExtValue pumpStart reads i a Ha)
    as (rtp & selected & before & Hread & Hbefore & ->).
  assert (lastTimestamp before = previousOriginal reads i) as Hprev
      by (rewrite Hbefore; destruct i; reflexivity).
  exists rtp, selected, before.
  split; [exact Hread|]. split; [exact Hprev|]. split; [reflexivity|].
  split; [apply pumpTurn_stores_original|].
  intros p pli Hsend. rewrite <- Hprev.
  eapply pumpTurn_sends_delta. exact Hsend.
Qed.

(** The third of three packets, sent on after a dropped one: its delta
    is taken from the dropped packet, 4500 - 4000. *)
Lemma pump_delta_from_previous_received_witness :
  exists rtp selected before,
    Relay.threeReads !! 2%nat = Some (ReadOk rtp, selected) /\
    lastTimestamp before = previousOriginal Relay.threeReads 2 /\
    Send (Relay.rtpOf "a"%char 9999 3 500) true
      = snd (pumpTurn 4 selected before rtp) /\
    lastTimestamp (fst (pumpTurn 4 selected before rtp)) = Timestamp rtp /\
    forall p pli,
      Send (Relay.rtpOf "a"%char 9999 3 500) true = Send p pli ->
      p = withTimestamp
            (if decide (previousOriginal Relay.threeReads 2 = 0) then 0
             else wrap32 (Timestamp rtp - previousOriginal Relay.threeReads 2))
            rtp.
Proof.
  apply (pump_delta_from_previous_received 4 Relay.threeReads 2%nat
           (Send (Relay.rtpOf "a"%char 9999 3 500) true)).
  vm_compute. reflexivity.
Defined.

(** A packet whose predecessor carried the timestamp 0 is sent on with
    delta 0, as if it were the first. *)
Example pumpTurn_after_zero_timestamp :
  snd (pumpTurn 4 "a"%char (mkPumpState 0 true)
                (Relay.rtpOf "a"%char 9999 7 90000))
  = Send (Relay.rtpOf "a"%char 9999 7 0) false.
Proof. vm_compute. reflexivity. Qed.

(** * Further properties of the negotiation layer *)

(** ** Back-references *)

Lemma Sender_storeSender t s sd h : Sender t (storeSender s sd h) = Sender t h.
Proof. reflexivity. Qed.

Lemma Sender_storeTrack t p k h : Sender t (storeTrack p k h) = Sender t h.
Proof. reflexivity. Qed.

Lemma Sender_storeTransceiver t t' tr h :
  Sender t (storeTransceiver t' tr h)
  = if decide (t' = t) then sender tr else Sender t h.
Proof.
  unfold Sender, storeTransceiver; simpl. rewrite lookup_insert.
  destruct (decide (t' = t)); reflexivity.
Qed.

Lemma backrefs_storeSender s sd sd' h :
  senders h !! s = Some sd ->
  transceiver sd' = transceiver sd ->
  backrefsAccurate h -> backrefsAccurate (storeSender s sd' h).
Proof.
  intros Hs Heq Hh x xd t Hx Ht. rewrite Sender_storeSender. simpl in Hx.
  destruct (decide (s = x)) as [->|Hne].
  - rewrite lookup_insert_eq in Hx. injection Hx as <-.
    rewrite Heq in Ht. exact (Hh x sd t Hs Ht).
  - rewrite lookup_insert_ne in Hx by exact Hne. exact (Hh x xd t Hx Ht).
Qed.

Lemma backrefs_storeTransceiver t tr tr' h :
  transceivers h !! t = Some tr ->
  sender tr' = sender tr ->
  backrefsAccurate h -> backrefsAccurate (storeTransceiver t tr' h).
Proof.
  intros Ht Heq Hh x xd t' Hx Hback. rewrite Sender_storeTransceiver.
  pose proof (Hh x xd t' Hx Hback) as Hold.
  destruct (decide (t = t')) as [<-|_]; [|exact Hold].
  rewrite Heq. unfold Sender in Hold. rewrite Ht in Hold. exact Hold.
Qed.

Lemma backrefs_same h h' :
  transceivers h' = transceivers h -> senders h' = senders h ->
  backrefsAccurate h -> backrefsAccurate h'.
Proof.
  intros Ht Hs Hh x xd t Hx Hback. unfold Sender. rewrite Ht.
  rewrite Hs in Hx. exact (Hh x xd t Hx Hback).
Qed.

Lemma setSender_backrefs t s h u h' :
  backrefsAccurate h -> setSender t s h = Returned u h' -> backrefsAccurate h'.
Proof.
  intros Hh H. unfold setSender in H.
  destruct (transceivers h !! t) as [tr|] eqn:Ht; [|discriminate H].
  assert (Sender t h = sender tr) as Hcur by (unfold Sender; rewrite Ht; reflexivity).
  destruct s as [sp|].
  - destruct (senders h !! sp) as [sd|] eqn:Hsp; [|discriminate H].
    destruct (sender tr) as [cur|] eqn:Hsender.
    + destruct (decide (Some sp = Some cur)) as [|Hne]; [discriminate H|].
      assert (sp <> cur) as Hne' by congruence.
      simpl in H. rewrite lookup_insert_ne in H by exact Hne'.
      destruct (senders h !! cur) as [cd|] eqn:Hc; [|discriminate H].
      injection H as _ <-. intros x xd t' Hx Hback.
      rewrite Sender_storeTransceiver. simpl in Hx.
      destruct (decide (cur = x)) as [->|Hxc].
      { rewrite lookup_insert_eq in Hx. injection Hx as <-. discriminate Hback. }
      rewrite lookup_insert_ne in Hx by exact Hxc.
      destruct (decide (sp = x)) as [->|Hxs].
      { rewrite lookup_insert_eq in Hx. injection Hx as <-.
        simpl in Hback. injection Hback as <-.
        destruct (decide (t = t)); [reflexivity|contradiction]. }
      rewrite lookup_insert_ne in Hx by exact Hxs.
      pose proof (Hh x xd t' Hx Hback) as Hold.
      destruct (decide (t = t')) as [<-|_]; [|exact Hold].
      rewrite Hcur in Hold. congruence.
    + injection H as _ <-. intros x xd t' Hx Hback.
      rewrite Sender_storeTransceiver. simpl in Hx.
      destruct (decide (sp = x)) as [->|Hxs].
      { rewrite lookup_insert_eq in Hx. injection Hx as <-.
        simpl in Hback. injection Hback as <-.
        destruct (decide (t = t)); [reflexivity|contradiction]. }
      rewrite lookup_insert_ne in Hx by exact Hxs.
      pose proof (Hh x xd t' Hx Hback) as Hold.
      destruct (decide (t = t')) as [<-|_]; [|exact Hold].
      rewrite Hcur in Hold. discriminate Hold.
  - destruct (sender tr) as [cur|] eqn:Hsender.
    + destruct (decide (None = Some cur)) as [E|_]; [discriminate E|].
      destruct (senders h !! cur) as [cd|] eqn:Hc; [|discriminate H].
      injection H as _ <-. intros x xd t' Hx Hback.
      rewrite Sender_storeTransceiver. simpl in Hx.
      destruct (decide (cur = x)) as [->|Hxc].
      { rewrite lookup_insert_eq in Hx. injection Hx as <-. discriminate Hback. }
      rewrite lookup_insert_ne in Hx by exact Hxc.
      pose proof (Hh x xd t' Hx Hback) as Hold.
      destruct (decide (t = t')) as [<-|_]; [|exact Hold].
      rewrite Hcur in Hold. congruence.
    + injection H as _ <-. intros x xd t' Hx Hback.
      rewrite Sender_storeTransceiver. simpl in Hx.
      pose proof (Hh x xd t' Hx Hback) as Hold.
      destruct (decide (t = t')) as [<-|_]; [|exact Hold].
      rewrite Hcur in Hold. discriminate Hold.
Qed.

(** ** What every call preserves *)

Lemma setDirection_returned t d h u h' :
  setDirection t d h = Returned u h' ->
  exists tr,
    transceivers h !! t = Some tr /\
    h' = storeTransceiver t (withDirection d tr) h.
Proof.
  unfold setDirection. destruct (transceivers h !! t) as [tr|]; [|discriminate].
  intros H. injection H as _ <-. eauto.
Qed.

Lemma setReceiver_returned t r h u h' :
  setReceiver t r h = Returned u h' ->
  exists tr,
    transceivers h !! t = Some tr /\
    h' = storeTransceiver t (withReceiver r tr) h.
Proof.
  unfold setReceiver. destruct (transceivers h !! t) as [tr|]; [|discriminate].
  intros H. injection H as _ <-. eauto.
Qed.

(** A relation between the heap a call finds and the heap it leaves holds
    across any sequence of calls as soon as it is a preorder that the
    elementary steps of the file respect. *)
Section Calls.

Variable R : Heap -> Heap -> Prop.
Hypothesis R_refl : forall h, R h h.
Hypothesis R_trans : forall h1 h2 h3, R h1 h2 -> R h2 h3 -> R h1 h3.
Hypothesis R_setSender :
  forall t s h u h', setSender t s h = Returned u h' -> R h h'.
Hypothesis R_setReceiver :
  forall t r h u h', setReceiver t r h = Returned u h' -> R h h'.
Hypothesis R_setDirection :
  forall t d h u h', setDirection t d h = Returned u h' -> R h h'.
Hypothesis R_bindTrack :
  forall s sd tk h,
    senders h !! s = Some sd -> R h (storeSender s (withTrack tk sd) h).
Hypothesis R_swapTrack :
  forall s new h e h', swapTrack s new h = Returned e h' -> R h h'.
Hypothesis R_allocate :
  forall h k,
    R h (storeTransceiver (newTransceiverAddr h) (inactiveTransceiver k) h).

Variable senderStop receiverStop : ptr -> Heap -> outcome (option error).
Hypothesis R_senderStop :
  forall p h e h', senderStop p h = Returned e h' -> R h h'.
Hypothesis R_receiverStop :
  forall p h e h', receiverStop p h = Returned e h' -> R h h'.

Lemma setSendingTrack_respects t tk h e h' :
  setSendingTrack t tk h = Returned e h' -> R h h'.
Proof.
  unfold setSendingTrack. intros H.
  destruct (Sender t h) as [s|]; [|discriminate H].
  destruct (senders h !! s) as [sd|] eqn:Hsd; [|discriminate H].
  apply bind_returned in H as (u & h2 & Hbind & H).
  assert (R h h2) as Hh2.
  { eapply R_trans; [apply (R_bindTrack s sd tk h Hsd)|].
    destruct tk; [injection Hbind as _ <-; apply R_refl|].
    eapply R_setSender, Hbind. }
  eapply R_trans; [exact Hh2|].
  destruct (transceivers h2 !! t) as [tr|]; [|discriminate H].
  destruct tk, (direction tr);
    try (injection H as _ <-; apply R_refl);
    apply bind_returned in H as (u' & h3 & Hd & H);
    injection H as _ <-; eapply R_setDirection, Hd.
Qed.

Lemma replaceTrack_respects t tk h e h' :
  replaceTrack senderStop t tk h = Returned e h' -> R h h'.
Proof.
  intros H. unfold replaceTrack in H.
  destruct (transceivers h !! t) as [tr|]; [|discriminate H].
  assert (forall o : outcome (option error),
             o = Returned e h' ->
             o = (if stopped tr then Returned (Some stoppedError) h
                  else if decide (direction tr ≠ RTPTransceiverDirectionSendrecv
                                  ∧ direction tr ≠ RTPTransceiverDirectionSendonly)
                  then setSendingTrack t tk h
                  else match tk with
                       | None =>
                         match sender tr with
                         | None => Panicked
                         | Some s =>
                           bind (senderStop s h)
                             (fun e h1 =>
                                match e with
                                | Some err => Returned (Some err) h1
                                | None => setSendingTrack t None h1
                                end)
                         end
                       | Some new =>
                         match sender tr with
                         | None => Panicked
                         | Some s => swapTrack s new h
                         end
                       end) ->
             R h h') as Hrest.
  { intros o Ho ->.
    destruct (stopped tr); [injection Ho as _ <-; apply R_refl|].
    destruct (decide _); [eapply setSendingTrack_respects, Ho|].
    destruct tk as [new|], (sender tr) as [s|]; try discriminate Ho.
    - eapply R_swapTrack, Ho.
    - apply bind_returned in Ho as (e1 & h1 & Hstop & Ho).
      eapply R_trans; [eapply R_senderStop, Hstop|].
      destruct e1; [injection Ho as _ <-; apply R_refl|].
      eapply setSendingTrack_respects, Ho. }
  destruct tk as [p|]; [|eapply Hrest; [exact H|reflexivity]].
  destruct (tracks h !! p) as [k|]; [|discriminate H].
  destruct (decide (trackKind k ≠ kind tr));
    [injection H as _ <-; apply R_refl|].
  eapply Hrest; [exact H|reflexivity].
Qed.

Lemma Stop_respects t h e h' :
  Stop senderStop receiverStop t h = Returned e h' -> R h h'.
Proof.
  intros H. unfold Stop in H.
  apply bind_returned in H as (e1 & h1 & Hs & H).
  assert (R h h1) as Hh1.
  { destruct (Sender t h); [eapply R_senderStop, Hs|].
    injection Hs as _ <-. apply R_refl. }
  eapply R_trans; [exact Hh1|].
  destruct e1; [injection H as _ <-; apply R_refl|].
  apply bind_returned in H as (e2 & h2 & Hr & H).
  assert (R h1 h2) as Hh2.
  { destruct (Receiver t h1); [eapply R_receiverStop, Hr|].
    injection Hr as _ <-. apply R_refl. }
  eapply R_trans; [exact Hh2|].
  destruct e2; [injection H as _ <-; apply R_refl|].
  apply bind_returned in H as (u & h3 & Hd & H).
  injection H as _ <-. eapply R_setDirection, Hd.
Qed.

Lemma pluckFirst_respects h k ds pool r h' :
  pluckFirst h k ds pool = Returned r h' -> R h h'.
Proof.
  induction ds as [|d ds IH]; simpl; intros H.
  - injection H as _ <-. apply R_allocate.
  - destruct (scanFrom h k d pool 0); try discriminate H; auto.
    injection H as _ <-. apply R_refl.
Qed.

Lemma calls_respect h h' :
  rtc (call senderStop receiverStop) h h' -> R h h'.
Proof.
  induction 1 as [h|h h1 h2 Hcall _ IH]; [apply R_refl|].
  eapply R_trans; [|exact IH].
  destruct Hcall.
  - eapply replaceTrack_respects; eauto.
  - eapply Stop_respects; eauto.
  - eapply setSendingTrack_respects; eauto.
  - eapply R_setSender; eauto.
  - eapply R_setReceiver; eauto.
  - eapply R_setDirection; eauto.
  - eapply pluckFirst_respects; eauto.
Qed.

End Calls.

Lemma swapTrack_frame s new h e h' :
  swapTrack s new h = Returned e h' ->
  transceivers h' = transceivers h /\
  (senders h' = senders h
   \/ exists sd,
       senders h !! s = Some sd /\
       senders h' = <[s := withTrack (Some new) sd]> (senders h)).
Proof.
  intros H. unfold swapTrack in H.
  destruct (senders h !! s) as [sd|] eqn:Hsd; [|discriminate H].
  destruct (tracks h !! new) as [kn|]; [|discriminate H].
  destruct (decide (trackReceiver kn ≠ None));
    [injection H as _ <-; auto|].
  match type of H with
  | match ?m with _ => _ end = _ => destruct m as [[err|] h1| |] eqn:E
  end; try discriminate H.
  - injection H as _ <-.
    destruct (track sd) as [old|]; [|discriminate E].
    returned E. auto.
  - assert (transceivers h1 = transceivers h /\ senders h1 = senders h)
      as [Ht Hs].
    { destruct (track sd) as [old|]; [|injection E as <-; auto].
      returned E. injection E as <-. auto. }
    destruct (tracks h1 !! new) as [kn1|]; [|discriminate H].
    injection H as _ <-. simpl. rewrite Ht, Hs. eauto.
Qed.

Lemma swapTrack_backrefs s new h e h' :
  swapTrack s new h = Returned e h' ->
  backrefsAccurate h -> backrefsAccurate h'.
Proof.
  intros H Hh. destruct (swapTrack_frame s new h e h' H) as [Ht [Hs|Hs]].
  - exact (backrefs_same h h' Ht Hs Hh).
  - destruct Hs as (sd & Hsd & Hs).
    apply (backrefs_same (storeSender s (withTrack (Some new) sd) h) h');
      [exact Ht|exact Hs|].
    apply (backrefs_storeSender s sd); [exact Hsd|reflexivity|exact Hh].
Qed.

Lemma allocate_backrefs h k :
  backrefsAccurate h ->
  backrefsAccurate
    (storeTransceiver (newTransceiverAddr h) (inactiveTransceiver k) h).
Proof.
  intros Hh x xd t Hx Hback. rewrite Sender_storeTransceiver.
  pose proof (Hh x xd t Hx Hback) as Hold.
  destruct (decide (newTransceiverAddr h = t)) as [<-|_]; [|exact Hold].
  unfold Sender in Hold. rewrite newTransceiverAddr_fresh in Hold.
  discriminate Hold.
Qed.

(** X1.  In a heap where every sender that names a transceiver is the
    sender this transceiver holds, whatever calls into the negotiation
    layer return, the heap reached has the same property: [setSender]
    clears the back-reference of the sender it displaces and sets that of
    the sender it installs.  The two [Stop] methods of sender and receiver
    are any that keep the property. *)
Theorem backrefs_stay_accurate senderStop receiverStop h h' :
  keepsBackrefs senderStop ->
  keepsBackrefs receiverStop ->
  backrefsAccurate h ->
  rtc (call senderStop receiverStop) h h' ->
  forall s sd t,
    senders h' !! s = Some sd ->
    transceiver sd = Some t ->
    Sender t h' = Some s.
Proof.
  intros Hs Hr Hh Hcalls.
  revert Hh.
  apply (calls_respect (fun h h' => backrefsAccurate h -> backrefsAccurate h'))
    with (senderStop := senderStop) (receiverStop := receiverStop);
    try exact Hcalls.
  - auto.
  - auto.
  - intros t s h0 u h0' H Hh. eapply setSender_backrefs; eauto.
  - intros t r h0 u h0' H Hh.
    apply setReceiver_returned in H as (tr & Ht & ->).
    apply (backrefs_storeTransceiver t tr); [exact Ht|reflexivity|exact Hh].
  - intros t d h0 u h0' H Hh.
    apply setDirection_returned in H as (tr & Ht & ->).
    apply (backrefs_storeTransceiver t tr); [exact Ht|reflexivity|exact Hh].
  - intros s sd tk h0 Hsd Hh.
    apply (backrefs_storeSender s sd); [exact Hsd|reflexivity|exact Hh].
  - intros s new h0 e h0' H Hh. eapply swapTrack_backrefs; eauto.
  - intros h0 k Hh. apply allocate_backrefs. exact Hh.
  - intros p h0 e h0' H Hh. eapply Hs; eauto.
  - intros p h0 e h0' H Hh. eapply Hr; eauto.
Qed.

Lemma stopOk_keepsBackrefs : keepsBackrefs Scenario.stopOk.
Proof. intros p h e h' Hh H. injection H as _ <-. exact Hh. Qed.

Lemma backrefs_stay_accurate_witness :
  Sender Scenario.t1 Scenario.afterSwap = Some Scenario.sender1.
Proof.
  apply (backrefs_stay_accurate Scenario.stopOk Scenario.stopOk
           Scenario.sendingA Scenario.afterSwap
           stopOk_keepsBackrefs stopOk_keepsBackrefs)
    with (sd := mkSender (Some Scenario.trackB) (Some Scenario.t1)).
  - intros s sd t Hs Ht. simpl in Hs.
    apply lookup_singleton_Some in Hs as [<- <-].
    simpl in Ht. injection Ht as <-. reflexivity.
  - apply rtc_once.
    apply (call_replaceTrack _ _ Scenario.t1 (Some Scenario.trackB) _ None).
    vm_compute. reflexivity.
  - reflexivity.
  - reflexivity.
Defined.

(** ** Kind and stopped flag *)

Lemma transceiversKept_refl h : transceiversKept h h.
Proof. intros t tr Ht. eauto. Qed.

Lemma transceiversKept_trans h1 h2 h3 :
  transceiversKept h1 h2 -> transceiversKept h2 h3 -> transceiversKept h1 h3.
Proof.
  intros H12 H23 t tr Ht.
  destruct (H12 t tr Ht) as (tr2 & Ht2 & Hk2 & Hs2).
  destruct (H23 t tr2 Ht2) as (tr3 & Ht3 & Hk3 & Hs3).
  exists tr3. split; [exact Ht3|]. split; congruence.
Qed.

Lemma transceiversKept_same h h' :
  transceivers h' = transceivers h -> transceiversKept h h'.
Proof. intros Heq t tr Ht. rewrite Heq. eauto. Qed.

Lemma transceiversKept_store t tr tr' h :
  transceivers h !! t = Some tr ->
  kind tr' = kind tr ->
  stopped tr' = stopped tr ->
  transceiversKept h (storeTransceiver t tr' h).
Proof.
  intros Ht Hk Hs x xr Hx. simpl.
  destruct (decide (t = x)) as [<-|Hne].
  - rewrite lookup_insert_eq. rewrite Ht in Hx. injection Hx as <-. eauto.
  - rewrite lookup_insert_ne by exact Hne. eauto.
Qed.

Lemma setSender_kept t s h u h' :
  setSender t s h = Returned u h' -> transceiversKept h h'.
Proof.
  intros H. unfold setSender in H.
  destruct (transceivers h !! t) as [tr|] eqn:Ht; [|discriminate H].
  match type of H with
  | match ?m with _ => _ end = _ => destruct m as [h1|] eqn:E
  end; [|discriminate H].
  assert (transceivers h1 = transceivers h) as Hh1.
  { destruct s as [sp|]; [destruct (senders h !! sp)|];
      try discriminate E; injection E as <-; reflexivity. }
  apply (transceiversKept_trans h h1); [apply transceiversKept_same, Hh1|].
  rewrite <- Hh1 in Ht.
  returned H;
    match goal with
    | |- transceiversKept _ (storeTransceiver _ _ (storeSender ?c ?cd ?h0)) =>
      apply (transceiversKept_trans _ (storeSender c cd h0));
        [apply transceiversKept_same; reflexivity|]
    | _ => idtac
    end;
    apply (transceiversKept_store t tr); auto.
Qed.

(** X2.  Across any sequence of returning calls into the negotiation
    layer, every transceiver stays allocated, keeps the kind it was
    created with and keeps its [stopped] flag: no function of the file
    assigns [kind] or [stopped], [Stop] included.  The two [Stop] methods
    of sender and receiver are any that leave these two fields alone. *)
Theorem kind_and_stopped_never_change senderStop receiverStop h h' t tr :
  keepsTransceivers senderStop ->
  keepsTransceivers receiverStop ->
  rtc (call senderStop receiverStop) h h' ->
  transceivers h !! t = Some tr ->
  exists tr',
    transceivers h' !! t = Some tr' /\
    kind tr' = kind tr /\
    stopped tr' = stopped tr.
Proof.
  intros Hs Hr Hcalls. revert t tr.
  change (transceiversKept h h').
  apply (calls_respect transceiversKept)
    with (senderStop := senderStop) (receiverStop := receiverStop);
    try exact Hcalls.
  - apply transceiversKept_refl.
  - apply transceiversKept_trans.
  - apply setSender_kept.
  - intros t r h0 u h0' H.
    apply setReceiver_returned in H as (tr & Ht & ->).
    apply (transceiversKept_store t tr); auto.
  - intros t d h0 u h0' H.
    apply setDirection_returned in H as (tr & Ht & ->).
    apply (transceiversKept_store t tr); auto.
  - intros s sd tk h0 Hsd. apply transceiversKept_same. reflexivity.
  - intros s new h0 e h0' H. apply transceiversKept_same.
    apply (swapTrack_frame s new h0 e h0' H).
  - intros h0 k x xr Hx. simpl. rewrite lookup_insert_ne; [eauto|].
    intros Heq. rewrite <- Heq, newTransceiverAddr_fresh in Hx.
    discriminate Hx.
  - exact Hs.
  - exact Hr.
Qed.

Lemma stopOk_keepsTransceivers : keepsTransceivers Scenario.stopOk.
Proof. intros p h e h' H. injection H as _ <-. apply transceiversKept_refl. Qed.

Lemma kind_and_stopped_never_change_witness :
  exists tr',
    transceivers Scenario.afterSwap !! Scenario.t1 = Some tr' /\
    kind tr' = RTPCodecTypeVideo /\
    stopped tr' = false.
Proof.
  apply (kind_and_stopped_never_change Scenario.stopOk Scenario.stopOk
           Scenario.sendingA Scenario.afterSwap Scenario.t1
           (mkTransceiver (Some Scenario.sender1) None
              RTPTransceiverDirectionSendrecv false RTPCodecTypeVideo)
           stopOk_keepsTransceivers stopOk_keepsTransceivers).
  - apply rtc_once.
    apply (call_replaceTrack _ _ Scenario.t1 (Some Scenario.trackB) _ None).
    vm_compute. reflexivity.
  - reflexivity.
Defined.

(** ** Stop *)

Lemma Stop_nil_sets_inactive senderStop receiverStop t h h' :
  Stop senderStop receiverStop t h = Returned None h' ->
  Direction t h' = Some RTPTransceiverDirectionInactive.
Proof.
  intros H. unfold Stop in H.
  apply bind_returned in H as (e1 & h1 & _ & H).
  destruct e1; [discriminate H|].
  apply bind_returned in H as (e2 & h2 & _ & H).
  destruct e2; [discriminate H|].
  apply bind_returned in H as (u & h3 & Hd & H).
  injection H as <-.
  apply setDirection_returned in Hd as (tr & Ht & ->).
  unfold Direction; simpl. rewrite lookup_insert_eq. reflexivity.
Qed.

(** What [replaceTrack] comes down to on a running transceiver that is
    not sending and is given a track of its own kind. *)
Lemma replaceTrack_not_sending stopS t new h tr kn :
  transceivers h !! t = Some tr ->
  tracks h !! new = Some kn ->
  stopped tr = false ->
  (direction tr = RTPTransceiverDirectionRecvonly
   \/ direction tr = RTPTransceiverDirectionInactive) ->
  trackKind kn = kind tr ->
  replaceTrack stopS t (Some new) h = setSendingTrack t (Some new) h.
Proof.
  intros Ht Hkn Hrun Hdir Hkind.
  unfold replaceTrack. rewrite Ht, Hkn, Hrun.
  destruct (decide (trackKind kn ≠ kind tr)) as [Hne|_]; [contradiction|].
  destruct (decide (direction tr ≠ RTPTransceiverDirectionSendrecv
                    ∧ direction tr ≠ RTPTransceiverDirectionSendonly))
    as [_|Hno]; [reflexivity|].
  exfalso. apply Hno. destruct Hdir as [-> | ->]; split; discriminate.
Qed.

(** X3.  After [Stop] has returned without error the transceiver is
    inactive, but it is not flagged stopped: a following [replaceTrack]
    with a track of the transceiver's kind is not refused, it binds the
    track to the sender the transceiver still holds and turns the
    direction to sendonly.  The two [Stop] methods of sender and receiver
    are any that leave [kind] and [stopped] alone. *)
Theorem replaceTrack_after_Stop_is_accepted
    senderStop receiverStop t h h' tr s sd new kn :
  keepsTransceivers senderStop ->
  keepsTransceivers receiverStop ->
  transceivers h !! t = Some tr ->
  stopped tr = false ->
  Stop senderStop receiverStop t h = Returned None h' ->
  Sender t h' = Some s ->
  senders h' !! s = Some sd ->
  tracks h' !! new = Some kn ->
  trackKind kn = kind tr ->
  Direction t h' = Some RTPTransceiverDirectionInactive /\
  exists h'',
    replaceTrack senderStop t (Some new) h' = Returned None h'' /\
    Direction t h'' = Some RTPTransceiverDirectionSendonly /\
    senders h'' !! s = Some (withTrack (Some new) sd).
Proof.
  intros Hs Hr Ht Hrun Hstop Hsender Hsd Hkn Hkind.
  pose proof (Stop_nil_sets_inactive _ _ _ _ _ Hstop) as Hdir.
  split; [exact Hdir|].
  assert (transceiversKept h h') as Hkept.
  { apply (Stop_respects transceiversKept transceiversKept_refl
             transceiversKept_trans
             ltac:(intros t0 d h0 u h0' H;
                   apply setDirection_returned in H as (tr0 & Ht0 & ->);
                   apply (transceiversKept_store t0 tr0); auto)
             senderStop receiverStop Hs Hr t h (@None error) h' Hstop). }
  destruct (Hkept t tr Ht) as (tr' & Ht' & Hk' & Hs').
  unfold Direction in Hdir. rewrite Ht' in Hdir. simpl in Hdir.
  injection Hdir as Hdir.
  unfold Sender in Hsender. rewrite Ht' in Hsender.
  rewrite (replaceTrack_not_sending senderStop t new h' tr' kn Ht' Hkn);
    [|congruence|right; exact Hdir|congruence].
  rewrite (setSendingTrack_unfold t (Some new) h' tr' s sd Ht' Hsender Hsd).
  rewrite Hdir. simpl. eexists. split; [reflexivity|].
  split.
  - unfold Direction; simpl. rewrite lookup_insert_eq. reflexivity.
  - simpl. apply lookup_insert_eq.
Qed.

Lemma replaceTrack_after_Stop_is_accepted_witness :
  Direction Scenario.t1 After.stopped = Some RTPTransceiverDirectionInactive /\
  exists h'',
    replaceTrack Scenario.stopOk Scenario.t1 (Some Scenario.trackB)
                 After.stopped = Returned None h'' /\
    Direction Scenario.t1 h'' = Some RTPTransceiverDirectionSendonly /\
    senders h'' !! Scenario.sender1
    = Some (withTrack (Some Scenario.trackB)
                      (mkSender (Some Scenario.trackA) (Some Scenario.t1))).
Proof.
  apply (replaceTrack_after_Stop_is_accepted Scenario.stopOk Scenario.stopOk
           Scenario.t1 Scenario.sendingA After.stopped
           (mkTransceiver (Some Scenario.sender1) None
              RTPTransceiverDirectionSendrecv false RTPCodecTypeVideo)
           Scenario.sender1
           (mkSender (Some Scenario.trackA) (Some Scenario.t1))
           Scenario.trackB
           (mkTrack RTPCodecTypeVideo 2222 "video/VP8" None [] 0)
           stopOk_keepsTransceivers stopOk_keepsTransceivers).
  - reflexivity.
  - reflexivity.
  - vm_compute. reflexivity.
  - reflexivity.
  - reflexivity.
  - reflexivity.
  - reflexivity.
Defined.

(** ** replaceTrack on a transceiver that is not sending *)

(** X4.  On a running transceiver in direction recvonly or inactive that
    holds a sender, [replaceTrack] with a track of the transceiver's kind
    returns no error, binds the track to the sender and turns the
    direction to sendrecv or sendonly; it looks neither at the track's
    codec nor at the track the sender held, and it leaves every track as
    it was: the sender is not added to the new track's list of active
    senders, nor taken off the old one's. *)
Theorem replaceTrack_binds_without_registering stopS t new h tr s sd kn :
  transceivers h !! t = Some tr ->
  sender tr = Some s ->
  senders h !! s = Some sd ->
  tracks h !! new = Some kn ->
  stopped tr = false ->
  (direction tr = RTPTransceiverDirectionRecvonly
   \/ direction tr = RTPTransceiverDirectionInactive) ->
  trackKind kn = kind tr ->
  exists h',
    replaceTrack stopS t (Some new) h = Returned None h' /\
    senders h' = <[s := withTrack (Some new) sd]> (senders h) /\
    tracks h' = tracks h /\
    Direction t h'
    = Some (match direction tr with
            | RTPTransceiverDirectionRecvonly => RTPTransceiverDirectionSendrecv
            | _ => RTPTransceiverDirectionSendonly
            end).
Proof.
  intros Ht Hs Hsd Hkn Hrun Hdir Hkind.
  rewrite (replaceTrack_not_sending stopS t new h tr kn Ht Hkn Hrun Hdir Hkind).
  rewrite (setSendingTrack_unfold t (Some new) h tr s sd Ht Hs Hsd).
  destruct Hdir as [Hd|Hd]; rewrite Hd; simpl;
    (eexists; split; [reflexivity|]; split; [reflexivity|];
     split; [reflexivity|]);
    unfold Direction; simpl; rewrite lookup_insert_eq; reflexivity.
Qed.

Lemma replaceTrack_binds_without_registering_witness :
  exists h',
    replaceTrack Scenario.stopOk Scenario.t1 (Some Scenario.trackB)
                 Scenario.receiving = Returned None h' /\
    senders h'
    = <[Scenario.sender1 := withTrack (Some Scenario.trackB)
                              (mkSender None (Some Scenario.t1))]>
        (senders Scenario.receiving) /\
    tracks h' = tracks Scenario.receiving /\
    Direction Scenario.t1 h' = Some RTPTransceiverDirectionSendrecv.
Proof.
  apply (replaceTrack_binds_without_registering Scenario.stopOk Scenario.t1
           Scenario.trackB Scenario.receiving
           (mkTransceiver (Some Scenario.sender1) None
              RTPTransceiverDirectionRecvonly false RTPCodecTypeVideo)
           Scenario.sender1 (mkSender None (Some Scenario.t1))
           (mkTrack RTPCodecTypeVideo 2222 "video/VP8" None [] 0)
           eq_refl eq_refl eq_refl eq_refl eq_refl (or_introl eq_refl) eq_refl).
Defined.

(** X5.  Two calls in a row on a transceiver that was not sending: the
    first binds a track whose list of active senders is empty, the second
    asks for another outbound track with the same codec.  The first
    returns no error; the second panics, because the track bound by the
    first call still has an empty list and the swap sizes its filtered
    list at the length of that list minus one. *)
Theorem second_replaceTrack_panics_on_unregistered_track
    stopS t first second h tr s sd k1 k2 :
  transceivers h !! t = Some tr ->
  sender tr = Some s ->
  senders h !! s = Some sd ->
  tracks h !! first = Some k1 ->
  tracks h !! second = Some k2 ->
  stopped tr = false ->
  (direction tr = RTPTransceiverDirectionRecvonly
   \/ direction tr = RTPTransceiverDirectionInactive) ->
  trackKind k1 = kind tr ->
  trackKind k2 = kind tr ->
  trackReceiver k2 = None ->
  first <> second ->
  codecMimeType k1 = codecMimeType k2 ->
  activeSenders k1 = [] ->
  exists h1,
    replaceTrack stopS t (Some first) h = Returned None h1 /\
    replaceTrack stopS t (Some second) h1 = Panicked.
Proof.
  intros Ht Hs Hsd Hk1 Hk2 Hrun Hdir Hkind1 Hkind2 Hrecv Hne Hmime Hempty.
  rewrite (replaceTrack_not_sending stopS t first h tr k1 Ht Hk1 Hrun Hdir Hkind1).
  rewrite (setSendingTrack_unfold t (Some first) h tr s sd Ht Hs Hsd).
  assert (exists d,
             specDirectionTable (direction tr) (isNonNull (Some first)) = Some d
             /\ (d = RTPTransceiverDirectionSendrecv
                 \/ d = RTPTransceiverDirectionSendonly)) as (d & -> & Hd).
  { destruct Hdir as [-> | ->]; simpl; eauto. }
  eexists. split; [reflexivity|].
  rewrite (replaceTrack_sending stopS t second _ (withDirection d tr) s k2);
    [|simpl; apply lookup_insert_eq|exact Hs|exact Hk2|exact Hrun
     |exact Hd|exact Hkind2].
  unfold swapTrack. simpl. rewrite lookup_insert_eq, Hk2. simpl.
  destruct (decide (trackReceiver k2 ≠ None)) as [Hr|_]; [contradiction|].
  destruct (decide (first = second)) as [He|_]; [contradiction|].
  rewrite Hk1.
  destruct (decide (codecMimeType k1 ≠ codecMimeType k2)) as [Hm|_];
    [contradiction|].
  destruct (decide (activeSenders k1 = [])) as [_|Hl]; [reflexivity|contradiction].
Qed.

Lemma second_replaceTrack_panics_on_unregistered_track_witness :
  exists h1,
    replaceTrack Scenario.stopOk Scenario.t1 (Some Scenario.trackA)
                 Scenario.receiving = Returned None h1 /\
    replaceTrack Scenario.stopOk Scenario.t1 (Some Scenario.trackB) h1
    = Panicked.
Proof.
  apply (second_replaceTrack_panics_on_unregistered_track Scenario.stopOk
           Scenario.t1 Scenario.trackA Scenario.trackB Scenario.receiving
           (mkTransceiver (Some Scenario.sender1) None
              RTPTransceiverDirectionRecvonly false RTPCodecTypeVideo)
           Scenario.sender1 (mkSender None (Some Scenario.t1))
           (mkTrack RTPCodecTypeVideo 1111 "video/VP8" None [] 0)
           (mkTrack RTPCodecTypeVideo 2222 "video/VP8" None [] 0)
           eq_refl eq_refl eq_refl eq_refl eq_refl eq_refl
           (or_introl eq_refl) eq_refl eq_refl eq_refl
           ltac:(discriminate) eq_refl eq_refl).
Defined.

(** ** replaceTrack with a nil track *)

(** X6.  On a running, sending transceiver, once the sender's [Stop] has
    returned without error (leaving the transceiver and the sender
    allocated), [replaceTrack(nil)] returns no error, empties the
    transceiver's sender slot, clears the sender's track and
    back-reference, turns sendrecv into recvonly and sendonly into
    inactive, and leaves the tracks as [Stop] left them.  From then on
    [replaceTrack] on this transceiver panics on the nil sender, for a nil
    track and for every track of the transceiver's kind. *)
Theorem replaceTrack_nil_detaches_sender stopS t h tr s h1 sd1 :
  transceivers h !! t = Some tr ->
  sender tr = Some s ->
  stopped tr = false ->
  (direction tr = RTPTransceiverDirectionSendrecv
   \/ direction tr = RTPTransceiverDirectionSendonly) ->
  stopS s h = Returned None h1 ->
  transceivers h1 !! t = Some tr ->
  senders h1 !! s = Some sd1 ->
  exists h',
    replaceTrack stopS t None h = Returned None h' /\
    Sender t h' = None /\
    senders h' !! s = Some (mkSender None None) /\
    tracks h' = tracks h1 /\
    Direction t h'
    = Some (match direction tr with
            | RTPTransceiverDirectionSendrecv => RTPTransceiverDirectionRecvonly
            | _ => RTPTransceiverDirectionInactive
            end) /\
    replaceTrack stopS t None h' = Panicked /\
    forall new kn,
      tracks h' !! new = Some kn ->
      trackKind kn = kind tr ->
      replaceTrack stopS t (Some new) h' = Panicked.
Proof.
  intros Ht Hs Hrun Hdir Hstop Ht1 Hsd1.
  assert (replaceTrack stopS t None h = setSendingTrack t None h1) as ->.
  { unfold replaceTrack. rewrite Ht, Hrun, Hs.
    destruct (decide (direction tr ≠ RTPTransceiverDirectionSendrecv
                      ∧ direction tr ≠ RTPTransceiverDirectionSendonly))
      as [[H1 H2]|_]; [destruct Hdir; contradiction|].
    rewrite Hstop. reflexivity. }
  rewrite (setSendingTrack_unfold t None h1 tr s sd1 Ht1 Hs Hsd1).
  assert (exists d,
             specDirectionTable (direction tr) (isNonNull None) = Some d /\
             d = match direction tr with
                 | RTPTransceiverDirectionSendrecv =>
                   RTPTransceiverDirectionRecvonly
                 | _ => RTPTransceiverDirectionInactive
                 end /\
             (d = RTPTransceiverDirectionRecvonly
              \/ d = RTPTransceiverDirectionInactive)) as (d & -> & Hd & Hd').
  { destruct Hdir as [-> | ->]; simpl; eauto. }
  rewrite <- Hd. eexists. split; [reflexivity|].
  assert (forall tk,
             match tk with
             | Some new => exists kn,
                 tracks h1 !! new = Some kn /\ trackKind kn = kind tr
             | None => True
             end ->
             replaceTrack stopS t tk
               (storeTransceiver t (withDirection d (withSender None tr))
                  (afterBinding t None tr s sd1 h1)) = Panicked) as Hnext.
  { intros tk Htk. unfold replaceTrack. simpl. rewrite lookup_insert_eq.
    simpl. rewrite Hrun.
    destruct (decide (d ≠ RTPTransceiverDirectionSendrecv
                      ∧ d ≠ RTPTransceiverDirectionSendonly)) as [_|Hno];
      [|exfalso; apply Hno; destruct Hd' as [-> | ->]; split; discriminate].
    assert (setSendingTrack t tk
              (storeTransceiver t (withDirection d (withSender None tr))
                 (afterBinding t None tr s sd1 h1)) = Panicked) as Hset.
    { unfold setSendingTrack, Sender. simpl. rewrite lookup_insert_eq.
      reflexivity. }
    destruct tk as [new|]; [|exact Hset].
    destruct Htk as (kn & -> & Hkind).
    destruct (decide (trackKind kn ≠ kind tr)); [contradiction|exact Hset]. }
  split; [unfold Sender; simpl; rewrite lookup_insert_eq; reflexivity|].
  split; [simpl; apply lookup_insert_eq|].
  split; [reflexivity|].
  split; [unfold Direction; simpl; rewrite lookup_insert_eq; reflexivity|].
  split; [apply (Hnext None); exact I|].
  intros new kn Hkn Hkind. apply (Hnext (Some new)). eauto.
Qed.

Lemma replaceTrack_nil_detaches_sender_witness :
  exists h',
    replaceTrack Scenario.stopOk Scenario.t1 None Scenario.sendingA
      = Returned None h' /\
    Sender Scenario.t1 h' = None /\
    senders h' !! Scenario.sender1 = Some (mkSender None None) /\
    tracks h' = tracks Scenario.sendingA /\
    Direction Scenario.t1 h' = Some RTPTransceiverDirectionRecvonly /\
    replaceTrack Scenario.stopOk Scenario.t1 None h' = Panicked /\
    forall new kn,
      tracks h' !! new = Some kn ->
      trackKind kn = RTPCodecTypeVideo ->
      replaceTrack Scenario.stopOk Scenario.t1 (Some new) h' = Panicked.
Proof.
  apply (replaceTrack_nil_detaches_sender Scenario.stopOk Scenario.t1
           Scenario.sendingA
           (mkTransceiver (Some Scenario.sender1) None
              RTPTransceiverDirectionSendrecv false RTPCodecTypeVideo)
           Scenario.sender1 Scenario.sendingA
           (mkSender (Some Scenario.trackA) (Some Scenario.t1))
           eq_refl eq_refl eq_refl (or_introl eq_refl) eq_refl eq_refl eq_refl).
Defined.

(** ** Swapping back and forth *)

(** A swap between two compatible tracks leaves the transceiver ready for
    the swap back. *)
Lemma replaceTrack_keeps_ready stopS t s bound other h :
  readyToSwap t s bound other h ->
  exists h',
    replaceTrack stopS t (Some other) h = Returned None h' /\
    readyToSwap t s other bound h'.
Proof.
  intros (tr & sd & kb & ko & Ht & Hs & Hrun & Hdir & Hsd & Hbound & Hkb & Hko
          & Hkindb & Hkindo & Hrb & Hro & Hmime & Hlist & Hne).
  rewrite (replaceTrack_sending stopS t other h tr s ko Ht Hs Hko Hrun Hdir Hkindo).
  rewrite (swapTrack_same_codec s other h sd bound kb ko
             Hsd Hbound Hkb Hko Hro Hne Hmime Hlist).
  eexists. split; [reflexivity|].
  exists tr, (withTrack (Some other) sd),
    (withActive (activeSenders ko ++ [s]) (totalSenderCount ko + 1) ko),
    (withActive (filter (fun x => x ≠ s) (activeSenders kb))
       (totalSenderCount kb
        - Z.of_nat (length (filter (fun x => x = s) (activeSenders kb)))) kb).
  simpl.
  repeat split; try assumption; try congruence.
  - apply lookup_insert_eq.
  - apply lookup_insert_eq.
  - rewrite lookup_insert_ne by congruence. apply lookup_insert_eq.
  - intros Habs. apply app_eq_nil in Habs as [_ Habs]. discriminate Habs.
Qed.

Lemma filter_other_snoc (s : ptr) (l : list ptr) :
  filter (fun x => x ≠ s) (l ++ [s]) = filter (fun x => x ≠ s) l.
Proof.
  rewrite filter_app, (filter_cons_False (fun x => x ≠ s)) by auto.
  rewrite filter_nil. apply app_nil_r.
Qed.

Lemma filter_same_snoc (s : ptr) (l : list ptr) :
  length (filter (fun x => x = s) (l ++ [s]))
  = S (length (filter (fun x => x = s) l)).
Proof.
  rewrite filter_app, (filter_cons_True (fun x => x = s)) by reflexivity.
  rewrite length_app. simpl. lia.
Qed.

Lemma filter_absent (s : ptr) (l : list ptr) :
  s ∉ l ->
  filter (fun x => x ≠ s) l = l /\ filter (fun x => x = s) l = [].
Proof.
  induction l as [|x l IH]; intros Hs; [split; reflexivity|].
  apply not_elem_of_cons in Hs as [Hne Hs]. destruct (IH Hs) as [H1 H2].
  split.
  - rewrite (filter_cons_True (fun y => y ≠ s)) by congruence.
    rewrite H1. reflexivity.
  - rewrite (filter_cons_False (fun y => y = s)) by congruence. exact H2.
Qed.

(** X7.  Round trip of the swap: on a running, sending transceiver whose
    sender holds the outbound track [a], listed there once, [replaceTrack]
    to another outbound track [b] of the same kind and codec that does not
    list the sender, followed by [replaceTrack] back to [a], both return no
    error and restore the heap: transceivers, senders and track [b] are
    what they were, every other track too, and track [a] has its count
    back and its list back up to the sender having moved to the end. *)
Theorem replaceTrack_there_and_back stopS t a b h tr s sd ka kb :
  transceivers h !! t = Some tr ->
  sender tr = Some s ->
  senders h !! s = Some sd ->
  track sd = Some a ->
  tracks h !! a = Some ka ->
  tracks h !! b = Some kb ->
  stopped tr = false ->
  (direction tr = RTPTransceiverDirectionSendrecv
   \/ direction tr = RTPTransceiverDirectionSendonly) ->
  trackKind ka = kind tr ->
  trackKind kb = kind tr ->
  trackReceiver ka = None ->
  trackReceiver kb = None ->
  a <> b ->
  codecMimeType ka = codecMimeType kb ->
  length (filter (fun x => x = s) (activeSenders ka)) = 1%nat ->
  s ∉ activeSenders kb ->
  exists h1 h2,
    replaceTrack stopS t (Some b) h = Returned None h1 /\
    replaceTrack stopS t (Some a) h1 = Returned None h2 /\
    transceivers h2 = transceivers h /\
    senders h2 = senders h /\
    tracks h2 !! b = Some kb /\
    tracks h2 !! a
    = Some (withActive (filter (fun x => x ≠ s) (activeSenders ka) ++ [s])
                       (totalSenderCount ka) ka) /\
    forall p, p <> a -> p <> b -> tracks h2 !! p = tracks h !! p.
Proof.
  intros Ht Hs Hsd Hbound Hka Hkb Hrun Hdir Hkinda Hkindb Hra Hrb Hne Hmime
         Honce Habsent.
  assert (activeSenders ka <> []) as Hlist.
  { intros Hnil. rewrite Hnil in Honce. discriminate Honce. }
  rewrite (replaceTrack_sending stopS t b h tr s kb Ht Hs Hkb Hrun Hdir Hkindb).
  rewrite (swapTrack_same_codec s b h sd a ka kb
             Hsd Hbound Hka Hkb Hrb Hne Hmime Hlist).
  eexists. eexists. split; [reflexivity|].
  match goal with
  | |- replaceTrack _ _ _ ?h1 = _ /\ _ => set (h1' := h1)
  end.
  set (ka1 := withActive (filter (fun x => x ≠ s) (activeSenders ka))
                (totalSenderCount ka
                 - Z.of_nat (length (filter (fun x => x = s) (activeSenders ka))))
                ka).
  set (kb1 := withActive (activeSenders kb ++ [s]) (totalSenderCount kb + 1) kb).
  assert (tracks h1' !! b = Some kb1) as Hkb1 by apply lookup_insert_eq.
  assert (tracks h1' !! a = Some ka1) as Hka1.
  { unfold h1'. simpl. rewrite lookup_insert_ne by congruence.
    apply lookup_insert_eq. }
  assert (senders h1' !! s = Some (withTrack (Some b) sd)) as Hsd1
      by apply lookup_insert_eq.
  rewrite (replaceTrack_sending stopS t a h1' tr s ka1 Ht Hs Hka1 Hrun Hdir Hkinda).
  rewrite (swapTrack_same_codec s a h1' (withTrack (Some b) sd) b kb1 ka1
             Hsd1 eq_refl Hkb1 Hka1 Hra (not_eq_sym Hne) (eq_sym Hmime));
    [|simpl; intros Habs; apply app_eq_nil in Habs as [_ Habs];
      discriminate Habs].
  split; [reflexivity|].
  destruct (filter_absent s (activeSenders kb) Habsent) as [Hkeep Hnone].
  simpl. split; [reflexivity|].
  split.
  { rewrite insert_insert_eq. apply insert_id. rewrite Hsd. f_equal.
    destruct sd as [tk back]. simpl in Hbound. subst tk. reflexivity. }
  split.
  { rewrite lookup_insert_ne by congruence. rewrite lookup_insert_eq.
    rewrite filter_other_snoc, filter_same_snoc, Hkeep, Hnone. simpl.
    destruct kb; unfold withActive; simpl. f_equal. f_equal. lia. }
  split.
  { rewrite lookup_insert_eq. rewrite Honce. unfold withActive; simpl.
    f_equal. f_equal. lia. }
  intros p Hpa Hpb.
  rewrite !lookup_insert_ne by congruence. reflexivity.
Qed.

Lemma replaceTrack_there_and_back_witness :
  exists h1 h2,
    replaceTrack Scenario.stopOk Scenario.t1 (Some Scenario.trackB)
                 Scenario.sendingA = Returned None h1 /\
    replaceTrack Scenario.stopOk Scenario.t1 (Some Scenario.trackA) h1
      = Returned None h2 /\
    transceivers h2 = transceivers Scenario.sendingA /\
    senders h2 = senders Scenario.sendingA /\
    tracks h2 !! Scenario.trackB
      = Some (mkTrack RTPCodecTypeVideo 2222 "video/VP8" None [] 0) /\
    tracks h2 !! Scenario.trackA
      = Some (mkTrack RTPCodecTypeVideo 1111 "video/VP8" None
                      [Scenario.sender1] 1) /\
    forall p,
      p <> Scenario.trackA -> p <> Scenario.trackB ->
      tracks h2 !! p = tracks Scenario.sendingA !! p.
Proof.
  apply (replaceTrack_there_and_back Scenario.stopOk Scenario.t1
           Scenario.trackA Scenario.trackB Scenario.sendingA
           (mkTransceiver (Some Scenario.sender1) None
              RTPTransceiverDirectionSendrecv false RTPCodecTypeVideo)
           Scenario.sender1
           (mkSender (Some Scenario.trackA) (Some Scenario.t1))
           (mkTrack RTPCodecTypeVideo 1111 "video/VP8" None [Scenario.sender1] 1)
           (mkTrack RTPCodecTypeVideo 2222 "video/VP8" None [] 0)
           eq_refl eq_refl eq_refl eq_refl eq_refl eq_refl eq_refl
           (or_introl eq_refl) eq_refl eq_refl eq_refl eq_refl
           ltac:(discriminate) eq_refl eq_refl).
  intros Hin. inversion Hin.
Defined.

(** ** The rotation loop *)

Lemma rotate_alternates stopS t s first second :
  forall n h curr bound other,
    (curr = 1 /\ bound = first /\ other = second
     \/ curr = 0 /\ bound = second /\ other = first) ->
    readyToSwap t s bound other h ->
    exists curr' h',
      rotate (replaceTrack stopS t) first second n curr h = Returned curr' h' /\
      if Nat.even n then readyToSwap t s bound other h'
      else readyToSwap t s other bound h'.
Proof.
  induction n as [|n IH]; intros h curr bound other Hcurr Hready.
  - simpl. eauto.
  - destruct (replaceTrack_keeps_ready stopS t s bound other h Hready)
      as (h1 & Hcall & Hready1).
    assert (exists curr1,
               rotate (replaceTrack stopS t) first second (S n) curr h
               = rotate (replaceTrack stopS t) first second n curr1 h1 /\
               (curr1 = 1 /\ other = first /\ bound = second
                \/ curr1 = 0 /\ other = second /\ bound = first))
      as (curr1 & -> & Hcurr1).
    { destruct Hcurr as [(-> & -> & ->)|(-> & -> & ->)]; simpl;
        rewrite Hcall; simpl.
      - exists 0. split; [reflexivity|right; auto].
      - exists 1. split; [reflexivity|left; auto]. }
    destruct (IH h1 curr1 other bound Hcurr1 Hready1) as (c' & h' & Hrun & Hend).
    exists c', h'. split; [exact Hrun|].
    rewrite Nat.even_succ, <- Nat.negb_even.
    destruct (Nat.even n); exact Hend.
Qed.

(** X8.  The rotation loop of the echo relay, started as [main] starts it
    ([curr = 1], the sender holding the first outbound track, listed
    there) with the transceiver's [replaceTrack] for the sender's
    [ReplaceTrack]: every turn asks for the track the sender does not
    hold, so no turn fails, panics or locks a track against itself, and
    after [n] turns the sender holds the first track when [n] is even and
    the second when [n] is odd, ready for the next swap. *)
Theorem rotation_never_fails stopS t s outputTrack1 outputTrack2 h n :
  readyToSwap t s outputTrack1 outputTrack2 h ->
  exists curr' h',
    rotate (replaceTrack stopS t) outputTrack1 outputTrack2 n 1 h
    = Returned curr' h' /\
    if Nat.even n then readyToSwap t s outputTrack1 outputTrack2 h'
    else readyToSwap t s outputTrack2 outputTrack1 h'.
Proof.
  intros Hready.
  apply (rotate_alternates stopS t s outputTrack1 outputTrack2 n h 1
           outputTrack1 outputTrack2); [left; auto|exact Hready].
Qed.

Lemma sendingA_ready :
  readyToSwap Scenario.t1 Scenario.sender1 Scenario.trackA Scenario.trackB
              Scenario.sendingA.
Proof.
  exists (mkTransceiver (Some Scenario.sender1) None
            RTPTransceiverDirectionSendrecv false RTPCodecTypeVideo),
    (mkSender (Some Scenario.trackA) (Some Scenario.t1)),
    (mkTrack RTPCodecTypeVideo 1111 "video/VP8" None [Scenario.sender1] 1),
    (mkTrack RTPCodecTypeVideo 2222 "video/VP8" None [] 0).
  repeat split; try reflexivity; try discriminate. left. reflexivity.
Qed.

Lemma rotation_never_fails_witness :
  exists curr' h',
    rotate (replaceTrack Scenario.stopOk Scenario.t1)
           Scenario.trackA Scenario.trackB 3 1 Scenario.sendingA
    = Returned curr' h' /\
    readyToSwap Scenario.t1 Scenario.sender1 Scenario.trackB Scenario.trackA h'.
Proof.
  exact (rotation_never_fails Scenario.stopOk Scenario.t1 Scenario.sender1
           Scenario.trackA Scenario.trackB Scenario.sendingA 3 sendingA_ready).
Defined.

(** Started one turn too early, at [curr = 0], the loop would ask for the
    track the sender already holds. *)
Example rotation_from_zero_deadlocks :
  rotate (replaceTrack Scenario.stopOk Scenario.t1)
         Scenario.trackA Scenario.trackB 1 0 Scenario.sendingA = Deadlocked.
Proof. vm_compute. reflexivity. Qed.

(** ** What the matcher hands back *)

Lemma scanFrom_sound h k d l i0 i t :
  scanFrom h k d l i0 = ScanFound i t ->
  exists j, i = (i0 + j)%nat /\ l !! j = Some t /\ matches h k d t.
Proof.
  revert i0. induction l as [|x l IH]; intros i0 H; simpl in H;
    [discriminate H|].
  destruct (transceivers h !! x) as [tr|] eqn:Hx; [|discriminate H].
  destruct (decide (kind tr ≠ k ∨ d ≠ direction tr)) as [_|Hhit].
  - destruct (IH (S i0) H) as (j & -> & Hj & Hm).
    exists (S j). split; [lia|]. split; [exact Hj|exact Hm].
  - injection H as <- <-. exists 0%nat. split; [lia|]. split; [reflexivity|].
    exists tr. split; [exact Hx|].
    destruct (decide (kind tr = k)) as [Hk|Hk];
      [|exfalso; apply Hhit; left; exact Hk].
    destruct (decide (d = direction tr)) as [Hd|Hd];
      [|exfalso; apply Hhit; right; exact Hd].
    split; [exact Hk|symmetry; exact Hd].
Qed.

Lemma pluckFirst_sound h k ds pool t pool' h' :
  pluckFirst h k ds pool = Returned (t, pool') h' ->
  (h' = h /\
   exists i d,
     d ∈ ds /\ pool !! i = Some t /\ pool' = delete i pool /\
     matches h k d t)
  \/ (t = newTransceiverAddr h /\ pool' = pool /\
      h' = storeTransceiver t (inactiveTransceiver k) h).
Proof.
  induction ds as [|d ds IH]; simpl; intros H.
  - right. injection H as <- <- <-. auto.
  - destruct (scanFrom h k d pool 0) as [i x| |] eqn:Hscan; [| |discriminate H].
    + left. injection H as <- <- <-.
      apply scanFrom_sound in Hscan as (j & -> & Hj & Hm). simpl.
      split; [reflexivity|]. exists j, d.
      split; [apply list_elem_of_here|]. split; [exact Hj|].
      split; [symmetry; apply delete_take_drop|exact Hm].
    + destruct (IH H) as [(-> & i & d' & Hd' & Hi & Hp & Hm)|Hnew];
        [left|right; exact Hnew].
      split; [reflexivity|]. exists i, d'.
      split; [apply list_elem_of_further; exact Hd'|]. auto.
Qed.

(** X9.  Whatever the pool, when the matcher returns: either it hands
    back an entry of the pool, of the remote kind and in one of the
    directions preferred for the remote direction, the returned pool
    together with that entry is a rearrangement of the pool it was given
    and the heap is untouched; or it hands back a transceiver that was not
    allocated before, of the remote kind and inactive, and the pool it was
    given.  A remote sendrecv or sendonly section is thus never paired
    with a local sendonly transceiver, nor a remote recvonly one with a
    local recvonly transceiver. *)
Theorem satisfyTypeAndDirection_hands_back_fitting_transceiver
    remoteKind remoteDirection pool h t pool' h' :
  satisfyTypeAndDirection remoteKind remoteDirection pool h
  = Returned (t, pool') h' ->
  exists tr,
    transceivers h' !! t = Some tr /\
    kind tr = remoteKind /\
    ((h' = h /\ t ∈ pool /\ pool ≡ₚ t :: pool' /\
      direction tr ∈ getPreferredDirections remoteDirection)
     \/ (transceivers h !! t = None /\ pool' = pool /\
         direction tr = RTPTransceiverDirectionInactive /\
         sender tr = None /\ receiver tr = None)).
Proof.
  unfold satisfyTypeAndDirection. intros H.
  apply pluckFirst_sound in H
    as [(-> & i & d & Hd & Hi & -> & tr & Ht & Hk & Hdir)|(-> & -> & ->)].
  - exists tr. split; [exact Ht|]. split; [exact Hk|]. left.
    split; [reflexivity|].
    split; [apply list_elem_of_lookup; eauto|].
    split; [apply delete_Permutation; exact Hi|].
    rewrite Hdir. exact Hd.
  - exists (inactiveTransceiver remoteKind).
    split; [simpl; apply lookup_insert_eq|]. split; [reflexivity|]. right.
    split; [apply newTransceiverAddr_fresh|]. auto.
Qed.

Lemma satisfyTypeAndDirection_hands_back_fitting_transceiver_witness :
  exists tr,
    transceivers Scenario.receiving !! Scenario.t1 = Some tr /\
    kind tr = RTPCodecTypeVideo /\
    ((Scenario.receiving = Scenario.receiving /\
      Scenario.t1 ∈ [Scenario.t1] /\
      [Scenario.t1] ≡ₚ [Scenario.t1] /\
      direction tr
        ∈ getPreferredDirections RTPTransceiverDirectionSendrecv)
     \/ (transceivers Scenario.receiving !! Scenario.t1 = None /\
         [] = [Scenario.t1] /\
         direction tr = RTPTransceiverDirectionInactive /\
         sender tr = None /\ receiver tr = None)).
Proof.
  apply (satisfyTypeAndDirection_hands_back_fitting_transceiver
           RTPCodecTypeVideo RTPTransceiverDirectionSendrecv
           [Scenario.t1] Scenario.receiving Scenario.t1 []
           Scenario.receiving).
  vm_compute. reflexivity.
Defined.

(** * Further properties of the relays *)

(** ** What stops the echo loop *)

Lemma echoPump_survivable outputTrack outputTrack1 ev rest :
  survivable outputTrack1 ev ->
  echoPump outputTrack outputTrack1 (ev :: rest)
  = (lastWrite outputTrack outputTrack1 ev
       ++ fst (echoPump outputTrack outputTrack1 rest),
     snd (echoPump outputTrack outputTrack1 rest)).
Proof.
  intros ((rtp & Hread) & (v & Hv) & Hwrite). simpl. unfold lastWrite.
  rewrite Hread, Hv.
  destruct (echoPump outputTrack outputTrack1 rest) as [ws status].
  destruct (outgoing ev); [reflexivity|reflexivity|contradiction].
Qed.

Lemma echoPump_fatal outputTrack outputTrack1 ev rest :
  ~ survivable outputTrack1 ev ->
  echoPump outputTrack outputTrack1 (ev :: rest)
  = (lastWrite outputTrack outputTrack1 ev, Dead).
Proof.
  intros Hbad. simpl. unfold lastWrite.
  destruct (incoming ev) as [rtp|] eqn:Hread; [|reflexivity].
  destruct (trackSSRC outputTrack1 (now ev)) as [v|] eqn:Hv; [|reflexivity].
  destruct (outgoing ev) eqn:Hout; try reflexivity;
    exfalso; apply Hbad; (split; [eauto|]); (split; [eauto|]);
    rewrite Hout; discriminate.
Qed.

(** X10.  While every packet is read and no write fails other than on a
    closed pipe, the echo loop keeps going: it makes exactly one write per
    packet read, closed pipe or not, and is still looping at the end. *)
Theorem echo_loop_survives_closed_pipes outputTrack outputTrack1 events :
  Forall (survivable outputTrack1) events ->
  length (fst (echoPump outputTrack outputTrack1 events)) = length events /\
  snd (echoPump outputTrack outputTrack1 events) = Looping.
Proof.
  induction 1 as [|ev rest Hev _ IH]; [split; reflexivity|].
  rewrite (echoPump_survivable _ _ _ _ Hev). simpl fst. simpl snd.
  destruct IH as [IHlen IHstatus]. split; [|exact IHstatus].
  rewrite length_app, IHlen. unfold lastWrite.
  destruct Hev as ((rtp & ->) & (v & ->) & _). reflexivity.
Qed.

Lemma echo_loop_survives_closed_pipes_witness :
  length (fst (echoPump Scenario.trackB Scenario.trackA
                 [mkPumpEvent (ReadOk (Relay.plain 10)) Scenario.sendingA
                              WriteClosedPipe;
                  mkPumpEvent (ReadOk (Relay.plain 20)) Scenario.sendingA
                              WriteOk])) = 2%nat /\
  snd (echoPump Scenario.trackB Scenario.trackA
         [mkPumpEvent (ReadOk (Relay.plain 10)) Scenario.sendingA
                      WriteClosedPipe;
          mkPumpEvent (ReadOk (Relay.plain 20)) Scenario.sendingA WriteOk])
  = Looping.
Proof.
  apply (echo_loop_survives_closed_pipes Scenario.trackB Scenario.trackA).
  repeat constructor; try (eexists; reflexivity); discriminate.
Defined.

(** X11.  The echo loop dies on the first event that is a failed read, a
    missing first outbound track or a write that fails other than on a
    closed pipe: the writes it has made are those of the events before,
    followed by the failed write itself when it is the write that failed,
    and no event after it is looked at. *)
Theorem echo_loop_dies_at_first_failure
    outputTrack outputTrack1 good bad rest :
  Forall (survivable outputTrack1) good ->
  ~ survivable outputTrack1 bad ->
  echoPump outputTrack outputTrack1 (good ++ bad :: rest)
  = (fst (echoPump outputTrack outputTrack1 good)
       ++ lastWrite outputTrack outputTrack1 bad,
     Dead).
Proof.
  intros Hgood Hbad. induction Hgood as [|ev good Hev _ IH].
  - simpl app. rewrite (echoPump_fatal _ _ _ _ Hbad). reflexivity.
  - rewrite <- app_comm_cons.
    rewrite !(echoPump_survivable _ _ _ _ Hev), IH. simpl.
    rewrite app_assoc. reflexivity.
Qed.

Lemma echo_loop_dies_at_first_failure_witness :
  echoPump Scenario.trackB Scenario.trackA
    ([mkPumpEvent (ReadOk (Relay.plain 10)) Scenario.sendingA WriteOk]
       ++ mkPumpEvent (ReadOk (Relay.plain 20)) Scenario.sendingA WriteFailed
       :: [mkPumpEvent (ReadOk (Relay.plain 30)) Scenario.sendingA WriteOk])
  = (fst (echoPump Scenario.trackB Scenario.trackA
            [mkPumpEvent (ReadOk (Relay.plain 10)) Scenario.sendingA WriteOk])
       ++ lastWrite Scenario.trackB Scenario.trackA
            (mkPumpEvent (ReadOk (Relay.plain 20)) Scenario.sendingA
                         WriteFailed),
     Dead).
Proof.
  apply (echo_loop_dies_at_first_failure Scenario.trackB Scenario.trackA).
  - repeat constructor; try (eexists; reflexivity); discriminate.
  - intros (_ & _ & Hout). apply Hout. reflexivity.
Defined.

(** ** Key-frame requests of the simulcast loop *)

Lemma pumpTurn_tracks_current ridExtValue selected st rtp :
  match snd (pumpTurn ridExtValue selected st rtp) with
  | Send _ pli =>
    pli = negb (isCurrTrack st) /\
    isCurrTrack (fst (pumpTurn ridExtValue selected st rtp)) = true
  | Skip => isCurrTrack (fst (pumpTurn ridExtValue selected st rtp)) = false
  | MissingStreamID => True
  end.
Proof.
  unfold pumpTurn.
  destruct (GetExtension _ _) as [|b ?]; [exact I|].
  destruct (decide (b ≠ selected)); simpl; auto.
Qed.

(** X12.  In a run of the simulcast packet loop, a packet is put on the
    channel after a picture-loss indication exactly when the packet handled
    just before it was dropped or, for the first packet of the run, when
    the track was not current at the start, as it is when the loop begins:
    of several packets forwarded in a row only the first asks for a key
    frame. *)
Theorem pli_only_after_a_dropped_packet ridExtValue st reads i p pli :
  fst (fst (pumpRun ridExtValue st reads)) !! i = Some (Send p pli) ->
  pli = negb (precededBySend (isCurrTrack st)
                             (fst (fst (pumpRun ridExtValue st reads))) i).
Proof.
  revert st i. induction reads as [|[r selected] rest IH]; intros st i Ha;
    simpl in Ha.
  - rewrite lookup_nil in Ha. discriminate Ha.
  - destruct r as [rtp|];
      [|simpl in Ha; rewrite lookup_nil in Ha; discriminate Ha].
    simpl. pose proof (pumpTurn_tracks_current ridExtValue selected st rtp) as Hcur.
    destruct (pumpTurn ridExtValue selected st rtp) as [st' a0].
    simpl in Hcur. specialize (IH st').
    destruct (pumpRun ridExtValue st' rest) as [[acts final] status].
    simpl in IH.
    destruct a0 as [|p0 pli0|]; simpl in Ha |- *.
    + destruct i as [|i]; [discriminate Ha|]. simpl in Ha.
      rewrite (IH i Ha). simpl. destruct i as [|i]; simpl;
        [rewrite Hcur; reflexivity|reflexivity].
    + destruct Hcur as [Hpli Hcur]. destruct i as [|i].
      * simpl in Ha. injection Ha as <- <-. exact Hpli.
      * simpl in Ha. rewrite (IH i Ha). simpl. destruct i as [|i]; simpl;
          [rewrite Hcur; reflexivity|reflexivity].
    + destruct i as [|i]; [discriminate Ha|]. simpl in Ha.
      rewrite lookup_nil in Ha. discriminate Ha.
Qed.

Lemma pli_only_after_a_dropped_packet_witness :
  true = negb (precededBySend false
                 (fst (fst (pumpRun 4 pumpStart Relay.threeReads))) 2).
Proof.
  apply (pli_only_after_a_dropped_packet 4 pumpStart Relay.threeReads 2%nat
           (Relay.rtpOf "a"%char 9999 3 500) true).
  vm_compute. reflexivity.
Defined.

(** ** Deltas in, offsets out *)

Lemma pumpTurn_ofStream ridExtValue selected st p :
  ofStream ridExtValue selected p ->
  pumpTurn ridExtValue selected st p
  = (mkPumpState (Timestamp p) true,
     Send (withTimestamp (if decide (lastTimestamp st = 0) then 0
                          else wrap32 (Timestamp p - lastTimestamp st)) p)
          (negb (isCurrTrack st))).
Proof.
  intros (rest & Hext). unfold pumpTurn.
  assert (forall v, GetExtension (wrap8 ridExtValue) (withTimestamp v p)
                    = selected :: rest) as Hext' by (intros v; exact Hext).
  destruct (decide (lastTimestamp st = 0)); rewrite Hext';
    (destruct (decide (selected ≠ selected)) as [Hne|_];
     [contradiction|reflexivity]).
Qed.

Lemma pumpRun_cons_send ridExtValue selected st rtp rest st' q pli :
  pumpTurn ridExtValue selected st rtp = (st', Send q pli) ->
  pumpRun ridExtValue st ((ReadOk rtp, selected) :: rest)
  = (Send q pli :: fst (fst (pumpRun ridExtValue st' rest)),
     snd (fst (pumpRun ridExtValue st' rest)),
     snd (pumpRun ridExtValue st' rest)).
Proof.
  intros Hturn. simpl. rewrite Hturn.
  destruct (pumpRun ridExtValue st' rest) as [[acts final] status].
  reflexivity.
Qed.

Lemma pumpRun_forwards_stream ridExtValue selected st pkts :
  Forall (ofStream ridExtValue selected) pkts ->
  sent (fst (fst (pumpRun ridExtValue st
                    ((fun p => (ReadOk p, selected)) <$> pkts))))
  = deltaEncode (lastTimestamp st) pkts.
Proof.
  intros Hall. revert st.
  induction Hall as [|p pkts Hp _ IH]; intros st; [reflexivity|].
  rewrite fmap_cons.
  rewrite (pumpRun_cons_send ridExtValue selected st p _ _ _ _
             (pumpTurn_ofStream ridExtValue selected st p Hp)).
  simpl fst. change (sent (Send ?q ?b :: ?acts)) with (q :: sent acts).
  rewrite (IH (mkPumpState (Timestamp p) true)). reflexivity.
Qed.

Lemma deltaEncode_lookup last ps i q :
  deltaEncode last ps !! i = Some q ->
  exists p, ps !! i = Some p /\ Payload q = Payload p.
Proof.
  revert last i. induction ps as [|p ps IH]; intros last i Hq; simpl in Hq.
  - rewrite lookup_nil in Hq. discriminate Hq.
  - destruct i as [|i].
    + simpl in Hq. injection Hq as <-. exists p. split; reflexivity.
    + simpl in Hq. exact (IH _ _ Hq).
Qed.

Lemma wrap32_add_r a b : wrap32 (a + wrap32 b) = wrap32 (a + b).
Proof. unfold wrap32. apply Zplus_mod_idemp_r. Qed.

Lemma sum_deltaEncode last ps i p :
  last <> 0 ->
  ps !! i = Some p ->
  (forall j q, (j < i)%nat -> ps !! j = Some q -> Timestamp q <> 0) ->
  wrap32 (sumTimestamps (take (S i) (deltaEncode last ps)))
  = wrap32 (Timestamp p - last).
Proof.
  revert last i. induction ps as [|p0 ps IH]; intros last i Hlast Hp Hnz.
  - rewrite lookup_nil in Hp. discriminate Hp.
  - simpl deltaEncode.
    destruct (decide (last = 0)) as [E|_]; [contradiction|].
    destruct i as [|i].
    + simpl in Hp. injection Hp as <-. simpl. rewrite ?take_0. simpl.
      replace (wrap32 (Timestamp p0 - last) + 0)
        with (wrap32 (Timestamp p0 - last)) by lia.
      unfold wrap32. apply Zmod_mod.
    + simpl in Hp.
      change (take (S (S i)) (?x :: ?l)) with (x :: take (S i) l).
      simpl sumTimestamps.
      rewrite <- wrap32_add_r.
      rewrite (IH (Timestamp p0) i).
      * rewrite wrap32_add_r, wrap32_add_l. f_equal. lia.
      * apply (Hnz 0%nat p0); [lia|reflexivity].
      * exact Hp.
      * intros j q Hj Hq. apply (Hnz (S j) q); [lia|exact Hq].
Qed.

Lemma sum_deltaEncode_start ps i p first :
  ps !! 0%nat = Some first ->
  ps !! i = Some p ->
  (forall j q, (j < i)%nat -> ps !! j = Some q -> Timestamp q <> 0) ->
  wrap32 (sumTimestamps (take (S i) (deltaEncode 0 ps)))
  = wrap32 (Timestamp p - Timestamp first).
Proof.
  intros Hfirst Hp Hnz.
  destruct ps as [|p0 rest]; [discriminate Hfirst|].
  simpl in Hfirst. injection Hfirst as ->.
  simpl deltaEncode. destruct (decide (0 = 0)) as [_|E]; [|contradiction].
  change (take (S i) (?x :: ?l)) with (x :: take i l).
  simpl sumTimestamps. rewrite Z.add_0_l.
  destruct i as [|i].
  - simpl in Hp. injection Hp as <-. rewrite take_0. simpl.
    f_equal. lia.
  - simpl in Hp. apply sum_deltaEncode.
    + apply (Hnz 0%nat first); [lia|reflexivity].
    + exact Hp.
    + intros j q Hj Hq'. apply (Hnz (S j) q); [lia|exact Hq'].
Qed.

(** X13.  From the packet loop to the consumer: when all the packets read
    on an inbound track carry the selected stream id and pass through the
    channel in order, the [i]-th packet written to the outbound track has
    for timestamp the original timestamp of the [i]-th packet read minus
    that of the first packet read, modulo 2^32, provided none of the
    packets read before it had the timestamp 0; its payload is that of the
    [i]-th packet read.  The stream goes out with its own spacing, rebased
    at 0. *)
Theorem relay_restores_offsets
    ridExtValue selected pkts events outputTrack i w first :
  Forall (ofStream ridExtValue selected) pkts ->
  pkts !! 0%nat = Some first ->
  (forall j p, (j < i)%nat -> pkts !! j = Some p -> Timestamp p <> 0) ->
  dequeued <$> events
  = sent (fst (fst (pumpRun ridExtValue pumpStart
                      ((fun p => (ReadOk p, selected)) <$> pkts)))) ->
  fst (consume outputTrack consumerStart events) !! i = Some w ->
  exists p,
    pkts !! i = Some p /\
    Timestamp (packet w) = wrap32 (Timestamp p - Timestamp first) /\
    Payload (packet w) = Payload p.
Proof.
  intros Hall Hfirst Hnz Hqueue Hw.
  rewrite (pumpRun_forwards_stream ridExtValue selected pumpStart pkts Hall)
    in Hqueue.
  simpl lastTimestamp in Hqueue.
  destruct (consume_nth outputTrack consumerStart events i w Hw)
    as (ev & v & Hev & _ & ->).
  assert (deltaEncode 0 pkts !! i = Some (dequeued ev)) as Hq.
  { rewrite <- Hqueue, list_lookup_fmap, Hev. reflexivity. }
  destruct (deltaEncode_lookup 0 pkts i (dequeued ev) Hq) as (p & Hp & Hpay).
  exists p. split; [exact Hp|]. simpl. split; [|exact Hpay].
  rewrite fmap_take, Hqueue, ?Z.add_0_l.
  apply sum_deltaEncode_start; assumption.
Qed.

Lemma relay_restores_offsets_witness :
  exists p,
    Stream.packetsOfA !! 2%nat = Some p /\
    Timestamp (packet (mkWritten Scenario.trackA
                         (mkPacket false 0 [] 2 3500 1111 []) WriteOk))
    = wrap32 (Timestamp p - Timestamp (Relay.rtpOf "a"%char 9999 1 1000)) /\
    Payload (packet (mkWritten Scenario.trackA
                       (mkPacket false 0 [] 2 3500 1111 []) WriteOk))
    = Payload p.
Proof.
  apply (relay_restores_offsets 4 "a"%char Stream.packetsOfA Stream.queueOfA
           Scenario.trackA 2%nat).
  - repeat constructor; eexists; vm_compute; reflexivity.
  - reflexivity.
  - intros [|[|j]] p Hj Hp; simpl in Hp; try lia;
      injection Hp as <-; discriminate.
  - vm_compute. reflexivity.
  - vm_compute. reflexivity.
Defined.

(** ** The offer's video section *)

(** X14.  The search for the offer's video section ends with a section
    exactly when the offer has one and only one media description named
    video, and then with that one, wherever it stands; without any it
    panics for lack of video, with two or more it panics for
    ambiguity. *)
Theorem findOfferVideo_needs_exactly_one mds :
  findOfferVideo mds
  = match filter (fun md => Media md = "video") mds with
    | [] => NoVideo
    | [md] => VideoFound md
    | _ => MultipleVideo
    end.
Proof.
  unfold findOfferVideo.
  assert (forall offerVideo,
             scanVideo offerVideo mds
             = match offerVideo, filter (fun md => Media md = "video") mds with
               | None, [] => NoVideo
               | None, [md] => VideoFound md
               | Some md, [] => VideoFound md
               | _, _ => MultipleVideo
               end) as Hscan.
  { induction mds as [|md rest IH]; intros offerVideo.
    - destruct offerVideo; reflexivity.
    - simpl scanVideo. destruct (decide (Media md = "video")) as [Hv|Hv].
      + rewrite (filter_cons_True (fun md => Media md = "video")) by exact Hv.
        destruct offerVideo as [found|]; [reflexivity|].
        rewrite IH.
        destruct (filter (fun md => Media md = "video") rest) as [|? [|? ?]];
          reflexivity.
      + rewrite (filter_cons_False (fun md => Media md = "video")) by exact Hv.
        apply IH. }
  rewrite Hscan. reflexivity.
Qed.

(** ** The answer's video section *)

Lemma appendSimulcast_filter toRecv offerAttrs attrs :
  appendSimulcast toRecv offerAttrs attrs
  = attrs ++ ((fun o => mkAttribute (Key o) (toRecv (Value o)))
                <$> filter (fun o => Key o = "rid" \/ Key o = "simulcast")
                           offerAttrs).
Proof.
  revert attrs. induction offerAttrs as [|o rest IH]; intros attrs; simpl.
  - rewrite app_nil_r. reflexivity.
  - destruct (decide (Key o = "rid" \/ Key o = "simulcast")) as [Hk|Hk].
    + rewrite IH, (filter_cons_True (fun o => Key o = "rid" \/ Key o = "simulcast"))
        by exact Hk.
      rewrite fmap_cons, <- app_assoc. reflexivity.
    + rewrite IH, (filter_cons_False (fun o => Key o = "rid" \/ Key o = "simulcast"))
        by exact Hk.
      reflexivity.
Qed.

Lemma copyAttributes_bind ridAttr toRecv offerVideo mdAttrs attrs :
  copyAttributes ridAttr toRecv (Attributes offerVideo) mdAttrs attrs
  = attrs ++ (mdAttrs ≫= fun a =>
                a :: (if decide (Key a = "rtpmap")
                      then simulcastLines ridAttr toRecv offerVideo
                      else [])).
Proof.
  revert attrs. induction mdAttrs as [|a rest IH]; intros attrs; simpl.
  - rewrite app_nil_r. reflexivity.
  - rewrite IH. destruct (decide (Key a = "rtpmap")).
    + rewrite appendSimulcast_filter. unfold simulcastLines.
      rewrite <- !app_assoc. reflexivity.
    + rewrite <- app_assoc. reflexivity.
Qed.

Lemma sublist_bind_cons {A} (f : A -> list A) (l : list A) :
  l `sublist_of` (l ≫= fun a => a :: f a).
Proof.
  induction l as [|a l IH]; [constructor|].
  simpl. apply sublist_skip.
  apply sublist_inserts_l. exact IH.
Qed.

(** X15.  The rewriting of the answer leaves every media description that
    is not named video as it is; in a video one it keeps every attribute,
    in order, and puts right after each rtpmap attribute the stream-id
    extmap followed by the rid and simulcast attributes of the offer's
    video section, in the offer's order, their values turned from send to
    recv.  A video section without rtpmap attribute gets nothing, one with
    several gets the block after each. *)
Theorem addSimulcastToAnswer_inserts_after_rtpmap
    ridAttr toRecv offerVideo mds :
  addSimulcastToAnswer ridAttr toRecv offerVideo mds
  = ((fun md =>
        if decide (Media md = "video") then
          mkMedia (Media md)
            (Attributes md ≫= fun a =>
               a :: (if decide (Key a = "rtpmap")
                     then simulcastLines ridAttr toRecv offerVideo
                     else []))
        else md) <$> mds) /\
  Forall2 (fun md md' =>
             Media md' = Media md /\
             Attributes md `sublist_of` Attributes md')
          mds (addSimulcastToAnswer ridAttr toRecv offerVideo mds).
Proof.
  unfold addSimulcastToAnswer. split.
  - apply list_fmap_ext. intros i md _.
    destruct (decide (Media md = "video")); [|reflexivity].
    rewrite copyAttributes_bind. reflexivity.
  - apply Forall2_fmap_r, Forall_Forall2_diag, Forall_forall. intros md _.
    unfold compose.
    destruct (decide (Media md = "video")); [|split; reflexivity].
    simpl. split; [reflexivity|].
    rewrite copyAttributes_bind. apply sublist_bind_cons.
Qed.

(** * Directions *)

Lemma setSendingTrack_lookups t tk h e h' :
  setSendingTrack t tk h = Returned e h' ->
  exists tr s sd,
    transceivers h !! t = Some tr /\ sender tr = Some s /\
    senders h !! s = Some sd.
Proof.
  unfold setSendingTrack, Sender. intros H.
  destruct (transceivers h !! t) as [tr|]; [|discriminate H].
  destruct (sender tr) as [s|] eqn:Hs; [|discriminate H].
  destruct (senders h !! s) as [sd|] eqn:Hsd; [|discriminate H].
  exists tr, s, sd. auto.
Qed.

Lemma Direction_storeTransceiver_ne t t' tr h :
  t <> t' -> Direction t' (storeTransceiver t tr h) = Direction t' h.
Proof.
  intros Hne. unfold Direction; simpl. rewrite lookup_insert_ne by exact Hne.
  reflexivity.
Qed.

(** What [setSendingTrack] does to directions, whatever it returns. *)
Lemma setSendingTrack_directions t tk h e h' :
  setSendingTrack t tk h = Returned e h' ->
  exists d d',
    Direction t h = Some d /\ Direction t h' = Some d' /\
    receives d' = receives d /\
    (e = None -> sends d' = isNonNull tk) /\
    forall t', t' <> t -> Direction t' h' = Direction t' h.
Proof.
  intros H.
  destruct (setSendingTrack_lookups t tk h e h' H) as (tr & s & sd & Ht & Hs & Hsd).
  rewrite (setSendingTrack_unfold t tk h tr s sd Ht Hs Hsd) in H.
  assert (Direction t h = Some (direction tr)) as Hd
      by (unfold Direction; rewrite Ht; reflexivity).
  assert (forall t', t' <> t ->
             Direction t' (afterBinding t tk tr s sd h) = Direction t' h)
    as Hother.
  { intros t' Hne. destruct tk; [reflexivity|]. simpl afterBinding.
    rewrite Direction_storeTransceiver_ne by congruence. reflexivity. }
  assert (Direction t (afterBinding t tk tr s sd h) = Some (direction tr))
    as Hsame.
  { destruct tk; [exact Hd|]. unfold Direction; simpl.
    rewrite lookup_insert_eq. reflexivity. }
  exists (direction tr).
  destruct (specDirectionTable (direction tr) (isNonNull tk)) as [d'|] eqn:Htab;
    injection H as <- <-.
  - exists d'. split; [exact Hd|].
    split; [unfold Direction; simpl; rewrite lookup_insert_eq; reflexivity|].
    split; [|split].
    + destruct (direction tr), tk; simpl in Htab; try discriminate Htab;
        injection Htab as <-; reflexivity.
    + intros _. destruct (direction tr), tk; simpl in Htab;
        try discriminate Htab; injection Htab as <-; reflexivity.
    + intros t' Hne. rewrite Direction_storeTransceiver_ne by congruence.
      apply Hother, Hne.
  - exists (direction tr). split; [exact Hd|]. split; [exact Hsame|].
    split; [reflexivity|]. split; [discriminate|exact Hother].
Qed.

Lemma swapTrack_sender_allocated s new h e h' :
  swapTrack s new h = Returned e h' -> is_Some (senders h !! s).
Proof.
  unfold swapTrack. destruct (senders h !! s); [eauto|discriminate].
Qed.

(** X16.  When [replaceTrack] returns without error, the direction it
    leaves includes sending exactly when the track it was given is not
    nil, whatever the direction was before and whatever the sender's
    [Stop] does. *)
Theorem replaceTrack_sends_iff_track_given stopS t tk h h' :
  replaceTrack stopS t tk h = Returned None h' ->
  exists d, Direction t h' = Some d /\ sends d = isNonNull tk.
Proof.
  intros H. unfold replaceTrack in H.
  destruct (transceivers h !! t) as [tr|] eqn:Ht; [|discriminate H].
  assert (forall o : outcome (option error),
             o = Returned None h' ->
             o = (if stopped tr then Returned (Some stoppedError) h
                  else if decide (direction tr ≠ RTPTransceiverDirectionSendrecv
                                  ∧ direction tr ≠ RTPTransceiverDirectionSendonly)
                  then setSendingTrack t tk h
                  else match tk with
                       | None =>
                         match sender tr with
                         | None => Panicked
                         | Some s =>
                           bind (stopS s h)
                             (fun e h1 =>
                                match e with
                                | Some err => Returned (Some err) h1
                                | None => setSendingTrack t None h1
                                end)
                         end
                       | Some new =>
                         match sender tr with
                         | None => Panicked
                         | Some s => swapTrack s new h
                         end
                       end) ->
             exists d, Direction t h' = Some d /\ sends d = isNonNull tk)
    as Hrest.
  { intros o Ho ->.
    destruct (stopped tr); [discriminate Ho|].
    destruct (decide _) as [_|Hsending].
    - destruct (setSendingTrack_directions t tk h None h' Ho)
        as (d & d' & _ & Hd' & _ & Hsends & _).
      exists d'. split; [exact Hd'|]. apply Hsends. reflexivity.
    - destruct tk as [new|], (sender tr) as [s|]; try discriminate Ho.
      + destruct (swapTrack_frame s new h None h' Ho) as [Hsame _].
        exists (direction tr). unfold Direction. rewrite Hsame, Ht.
        split; [reflexivity|].
        destruct (direction tr); try reflexivity;
          exfalso; apply Hsending; split; discriminate.
      + apply bind_returned in Ho as (e1 & h1 & _ & Ho).
        destruct e1; [discriminate Ho|].
        destruct (setSendingTrack_directions t None h1 None h' Ho)
          as (d & d' & _ & Hd' & _ & Hsends & _).
        exists d'. split; [exact Hd'|]. apply Hsends. reflexivity. }
  destruct tk as [p|]; [|eapply Hrest; [exact H|reflexivity]].
  destruct (tracks h !! p) as [k|]; [|discriminate H].
  destruct (decide (trackKind k ≠ kind tr)); [discriminate H|].
  eapply Hrest; [exact H|reflexivity].
Qed.

Lemma replaceTrack_sends_iff_track_given_witness :
  exists d,
    Direction Scenario.t1 Scenario.afterSwap = Some d /\
    sends d = isNonNull (Some Scenario.trackB).
Proof.
  apply (replaceTrack_sends_iff_track_given Scenario.stopOk Scenario.t1
           (Some Scenario.trackB) Scenario.sendingA Scenario.afterSwap).
  vm_compute. reflexivity.
Defined.

(** X17.  [replaceTrack] never touches the receiving half: whatever it
    returns, the transceiver receives afterwards exactly when it received
    before, and the direction of every other transceiver is what it was.
    The sender's [Stop] is any that leaves directions alone. *)
Theorem replaceTrack_keeps_receiving_half stopS t tk h e h' :
  keepsDirections stopS ->
  replaceTrack stopS t tk h = Returned e h' ->
  (receives <$> Direction t h') = (receives <$> Direction t h) /\
  forall t', t' <> t -> Direction t' h' = Direction t' h.
Proof.
  intros Hstop H.
  assert (forall h0 tk0 e0,
             setSendingTrack t tk0 h0 = Returned e0 h' ->
             (receives <$> Direction t h') = (receives <$> Direction t h0) /\
             forall t', t' <> t -> Direction t' h' = Direction t' h0) as Hset.
  { intros h0 tk0 e0 H0.
    destruct (setSendingTrack_directions t tk0 h0 e0 h' H0)
      as (d & d' & Hd & Hd' & Hrecv & _ & Hother).
    split; [rewrite Hd, Hd'; simpl; rewrite Hrecv; reflexivity|exact Hother]. }
  unfold replaceTrack in H.
  destruct (transceivers h !! t) as [tr|] eqn:Ht; [|discriminate H].
  assert (forall o : outcome (option error),
             o = Returned e h' ->
             o = (if stopped tr then Returned (Some stoppedError) h
                  else if decide (direction tr ≠ RTPTransceiverDirectionSendrecv
                                  ∧ direction tr ≠ RTPTransceiverDirectionSendonly)
                  then setSendingTrack t tk h
                  else match tk with
                       | None =>
                         match sender tr with
                         | None => Panicked
                         | Some s =>
                           bind (stopS s h)
                             (fun e h1 =>
                                match e with
                                | Some err => Returned (Some err) h1
                                | None => setSendingTrack t None h1
                                end)
                         end
                       | Some new =>
                         match sender tr with
                         | None => Panicked
                         | Some s => swapTrack s new h
                         end
                       end) ->
             (receives <$> Direction t h') = (receives <$> Direction t h) /\
             forall t', t' <> t -> Direction t' h' = Direction t' h) as Hrest.
  { intros o Ho ->.
    destruct (stopped tr); [injection Ho as _ <-; auto|].
    destruct (decide _); [eapply Hset, Ho|].
    destruct tk as [new|], (sender tr) as [s|]; try discriminate Ho.
    - destruct (swapTrack_frame s new h e h' Ho) as [Hsame _].
      unfold Direction. rewrite Hsame. auto.
    - apply bind_returned in Ho as (e1 & h1 & Hs & Ho).
      assert (forall t', Direction t' h1 = Direction t' h) as Hh1
          by (intros t'; eapply Hstop, Hs).
      destruct e1; [injection Ho as _ <-; split; [rewrite Hh1|]; auto|].
      destruct (Hset h1 None e Ho) as [Hr Ho'].
      split; [rewrite Hr, Hh1; reflexivity|].
      intros t' Hne. rewrite (Ho' t' Hne). apply Hh1. }
  destruct tk as [p|]; [|eapply Hrest; [exact H|reflexivity]].
  destruct (tracks h !! p) as [k|]; [|discriminate H].
  destruct (decide (trackKind k ≠ kind tr));
    [injection H as _ <-; auto|].
  eapply Hrest; [exact H|reflexivity].
Qed.

Lemma stopOk_keepsDirections : keepsDirections Scenario.stopOk.
Proof. intros p h e h' t H. injection H as _ <-. reflexivity. Qed.

Lemma replaceTrack_keeps_receiving_half_witness :
  (receives <$> Direction Scenario.t1 Scenario.afterSwap)
  = (receives <$> Direction Scenario.t1 Scenario.sendingA) /\
  forall t',
    t' <> Scenario.t1 ->
    Direction t' Scenario.afterSwap = Direction t' Scenario.sendingA.
Proof.
  apply (replaceTrack_keeps_receiving_half Scenario.stopOk Scenario.t1
           (Some Scenario.trackB) Scenario.sendingA None Scenario.afterSwap
           stopOk_keepsDirections).
  vm_compute. reflexivity.
Defined.

(** * What stops the simulcast loop *)

Lemma pumpTurn_readable ridExtValue selected st rtp :
  GetExtension (wrap8 ridExtValue) rtp <> [] ->
  snd (pumpTurn ridExtValue selected st rtp) <> MissingStreamID.
Proof.
  intros Hext. unfold pumpTurn.
  assert (forall v, GetExtension (wrap8 ridExtValue) (withTimestamp v rtp)
                    = GetExtension (wrap8 ridExtValue) rtp) as Hsame
      by reflexivity.
  destruct (decide (lastTimestamp st = 0)); rewrite Hsame;
    (destruct (GetExtension (wrap8 ridExtValue) rtp) as [|b ?];
     [contradiction|]);
    destruct (decide (b ≠ selected)); discriminate.
Qed.

Lemma pumpTurn_unreadable ridExtValue selected st rtp :
  GetExtension (wrap8 ridExtValue) rtp = [] ->
  snd (pumpTurn ridExtValue selected st rtp) = MissingStreamID.
Proof.
  intros Hext. unfold pumpTurn.
  assert (forall v, GetExtension (wrap8 ridExtValue) (withTimestamp v rtp) = [])
    as Hsame by (intros v; exact Hext).
  destruct (decide (lastTimestamp st = 0)); rewrite Hsame; reflexivity.
Qed.

Lemma pumpRun_cons_alive ridExtValue selected st rtp rest :
  snd (pumpTurn ridExtValue selected st rtp) <> MissingStreamID ->
  pumpRun ridExtValue st ((ReadOk rtp, selected) :: rest)
  = (snd (pumpTurn ridExtValue selected st rtp)
       :: fst (fst (pumpRun ridExtValue
                      (fst (pumpTurn ridExtValue selected st rtp)) rest)),
     snd (fst (pumpRun ridExtValue
                 (fst (pumpTurn ridExtValue selected st rtp)) rest)),
     snd (pumpRun ridExtValue
            (fst (pumpTurn ridExtValue selected st rtp)) rest)).
Proof.
  intros Halive. simpl.
  destruct (pumpTurn ridExtValue selected st rtp) as [st' a]. simpl in *.
  destruct (pumpRun ridExtValue st' rest) as [[acts final] status].
  destruct a; [reflexivity|reflexivity|contradiction].
Qed.

(** X18.  The simulcast packet loop lives through every packet that
    carries a stream-id extension, forwarded or dropped: over such reads
    it takes one action per packet and is still looping.  It dies on the
    first read that fails or brings a packet without the extension; the
    actions it has taken are those for the reads before, followed by the
    panic for the missing stream id when a packet was read, and no later
    read is looked at. *)
Theorem simulcast_loop_dies_only_on_unreadable ridExtValue st good :
  Forall (readable ridExtValue) good ->
  (snd (pumpRun ridExtValue st good) = Looping /\
   length (fst (fst (pumpRun ridExtValue st good))) = length good) /\
  forall bad rest,
    ~ readable ridExtValue bad ->
    snd (pumpRun ridExtValue st (good ++ bad :: rest)) = Dead /\
    fst (fst (pumpRun ridExtValue st (good ++ bad :: rest)))
    = fst (fst (pumpRun ridExtValue st good))
        ++ match fst bad with
           | ReadOk _ => [MissingStreamID]
           | ReadFailed => []
           end.
Proof.
  intros Hgood. revert st.
  induction Hgood as [|[r selected] good Hr _ IH]; intros st.
  - split; [split; reflexivity|].
    intros [r selected] rest Hbad. simpl app.
    destruct r as [rtp|]; [|split; reflexivity].
    assert (GetExtension (wrap8 ridExtValue) rtp = []) as Hext.
    { destruct (GetExtension (wrap8 ridExtValue) rtp) eqn:E; [reflexivity|].
      exfalso. apply Hbad. exists rtp. split; [reflexivity|].
      rewrite E. discriminate. }
    pose proof (pumpTurn_unreadable ridExtValue selected st rtp Hext) as Hturn.
    simpl. destruct (pumpTurn ridExtValue selected st rtp) as [st' a].
    simpl in Hturn. subst a. split; reflexivity.
  - destruct Hr as (rtp & Hread & Hext). simpl in Hread. subst r.
    pose proof (pumpTurn_readable ridExtValue selected st rtp Hext) as Halive.
    destruct (IH (fst (pumpTurn ridExtValue selected st rtp)))
      as [[IHstatus IHlen] IHbad].
    split.
    + rewrite (pumpRun_cons_alive _ _ _ _ _ Halive). simpl.
      split; [exact IHstatus|]. rewrite IHlen. reflexivity.
    + intros bad rest Hbad. destruct (IHbad bad rest Hbad) as [Hdead Hacts].
      rewrite <- app_comm_cons.
      rewrite !(pumpRun_cons_alive _ _ _ _ _ Halive). simpl.
      split; [exact Hdead|]. rewrite Hacts. reflexivity.
Qed.

Lemma simulcast_loop_dies_only_on_unreadable_witness :
  (snd (pumpRun 4 pumpStart Relay.threeReads) = Looping /\
   length (fst (fst (pumpRun 4 pumpStart Relay.threeReads)))
   = length Relay.threeReads) /\
  forall bad rest,
    ~ readable 4 bad ->
    snd (pumpRun 4 pumpStart (Relay.threeReads ++ bad :: rest)) = Dead /\
    fst (fst (pumpRun 4 pumpStart (Relay.threeReads ++ bad :: rest)))
    = fst (fst (pumpRun 4 pumpStart Relay.threeReads))
        ++ match fst bad with
           | ReadOk _ => [MissingStreamID]
           | ReadFailed => []
           end.
Proof.
  apply (simulcast_loop_dies_only_on_unreadable 4 pumpStart Relay.threeReads).
  repeat constructor; eexists; (split; [reflexivity|]); vm_compute;
    discriminate.
Defined.
